(** * EventHooks (src/lib/utils/hooks.ts)

    A shallow embedding of the [EventHooks] class and of the part of the
    JavaScript object store it lives in.

    The class keeps a [Map] from event keys to array references.  [on] and
    [once] copy the stored array, insert into the copy and store the copy;
    [off] splices the stored array in place; [emit] copies the stored array,
    stores a filtered copy and then maps over its private copy while the
    listeners run (and may call back into the registry).  Arrays are therefore
    modelled as objects in a store, addressed by references, so that copying,
    in-place mutation and the absence of sharing are all explicit.

    The records in the arrays are created by [on] and [once] and never
    written afterwards, so they are values.  [order] is a [number] in the
    source and an integer here, as in the specification's data model.

    A listener is a function reference whose body may read and write state
    outside the registry, call [on], [once] and [off] on the registry, and
    return or throw.  Listeners that call [emit] themselves are not covered:
    their runs need not end. *)

From stdpp Require Import gmap strings list sorting.

(** ** Completions *)

(** A call either returns a value or throws. *)
Inductive Completion (T X : Type) : Type :=
  | Normal (v : T)
  | Throw (x : X).
Arguments Normal {T X} v.
Arguments Throw {T X} x.

Definition cmap {T U X : Type} (g : T → U) (c : Completion T X) : Completion U X :=
  match c with
  | Normal v => Normal (g v)
  | Throw x => Throw x
  end.

(** Function values are compared with [===], that is by reference: a
    function is represented by its reference. *)
Definition fn := nat.

(** References to array objects. *)
Definition loc := nat.

(** The element type of the stored arrays,
    [{ listener: Function; once?: boolean; order: number }].
    [once] is optional: [on] leaves it out, [once] sets it to [true].
    [stamp] is a ghost field, not present in the source: it records how many
    registrations preceded the one that created this record, and is never
    read by any operation. *)
Record ListenerObject : Type := {
  listener : fn;
  once : option bool;
  order : Z;
  stamp : nat;
}.

Global Instance ListenerObject_eq_dec : EqDecision ListenerObject.
Proof. solve_decision. Defined.

(** Truthiness of the optional flag: [undefined] and [false] are falsy. *)
Definition truthy (b : option bool) : bool := default false b.

(** The predicate of [listeners.filter(({ once }) => !once)]. *)
Definition not_once (lo : ListenerObject) : bool := negb (truthy (once lo)).

(** ** [insertOrderSorted] on array contents *)

(** Modelled from the spec: [insertOrderSorted] is imported from [./array],
    which is not part of the sources at hand.  The specification places the
    new record at the first position [i] such that the existing record at
    [i] has [order] strictly greater than the new record's [order], and
    appends at the end if there is none. *)
Definition insert_position (arr : list ListenerObject) (item : ListenerObject) : nat :=
  match list_find (λ v, order item < order v)%Z arr with
  | Some (i, _) => i
  | None => length arr
  end.

(** Modelled from the spec: the contents of the array after
    [insertOrderSorted(arr, item)]; see [insert_position]. *)
Definition insertOrderSorted_list (arr : list ListenerObject) (item : ListenerObject)
  : list ListenerObject :=
  take (insert_position arr item) arr ++ item :: drop (insert_position arr item) arr.

(** [listeners.findIndex((lo) => lo.listener === listener)], [-1] when no
    element matches. *)
Definition findIndex (f : fn) (arr : list ListenerObject) : Z :=
  match list_find (λ lo, listener lo = f) arr with
  | Some (i, _) => Z.of_nat i
  | None => (-1)%Z
  end.

(** The contents of an array after [splice(index, 1)] for [index >= 0]. *)
Definition splice1 (index : Z) (arr : list ListenerObject) : list ListenerObject :=
  delete (Z.to_nat index) arr.

(** [i] is the first position of [xs] whose record has an [order] strictly
    greater than [ord], and the length of [xs] if there is no such record. *)
Definition first_greater (ord : Z) (xs : list ListenerObject) (i : nat) : Prop :=
  i ≤ length xs ∧
  (∀ j x, xs !! j = Some x → j < i → (order x ≤ ord)%Z) ∧
  (∀ x, xs !! i = Some x → (ord < order x)%Z).

(** ** The order kept in a stored sequence *)

(** [x] comes before [y]: smaller [order], or equal [order] and registered
    earlier. *)
Definition before (x y : ListenerObject) : Prop :=
  (order x < order y)%Z ∨ (order x = order y ∧ stamp x < stamp y).

(** A sequence as the registry keeps it when [n] registrations have been
    made. *)
Definition ordered (n : nat) (xs : list ListenerObject) : Prop :=
  StronglySorted before xs ∧ Forall (λ lo, stamp lo < n) xs.

Section EventHooks.

(** [K] is [keyof T], the event keys; [A] stands for the argument tuples
    [T[K]]; [R] is the listeners' result type; [X] is the type of thrown
    values; [W] is whatever state outside the registry the listeners read and
    write (the variables their closures capture). *)
Context {K : Type} `{Countable K}.
Context {A R X W : Type}.

(** What a listener does to the registry while it runs.  [_listeners] is
    private, so a listener can act on the registry only through its
    methods. *)
Inductive Call : Type :=
  | CallOn (event : K) (f : fn) (ord : Z)
  | CallOnce (event : K) (f : fn) (ord : Z)
  | CallOff (event : K) (f : fn).

(** One run of a listener: the registry methods it called, in order, how it
    completed, and the outside state it left. *)
Record Run : Type := {
  calls_made : list Call;
  completion : Completion R X;
  world_after : W;
}.

(** The body of every function value: what [f(...args)] does when the
    outside state is [w]. *)
Variable code : fn → A → W → Run.

(** The store.  [_listeners] is the private field of the registry object;
    [arrays] holds the array objects; [next] is the next free reference.
    [registered] and [invoked] are ghost: the number of registrations made so
    far and the log of listener invocations. *)
Record State : Type := {
  _listeners : gmap K loc;
  arrays : gmap loc (list ListenerObject);
  next : loc;
  world : W;
  registered : nat;
  invoked : list (fn * A);
}.

(** [new EventHooks()] in outside state [w]. *)
Definition new_EventHooks (w : W) : State :=
  {| _listeners := ∅; arrays := ∅; next := 0; world := w;
     registered := 0; invoked := [] |}.

(** *** Store primitives *)

(** The contents of an array. *)
Definition read (l : loc) (st : State) : list ListenerObject :=
  default [] (arrays st !! l).

(** An array is written in place. *)
Definition write (l : loc) (xs : list ListenerObject) (st : State) : State :=
  {| _listeners := _listeners st; arrays := <[l := xs]> (arrays st);
     next := next st; world := world st;
     registered := registered st; invoked := invoked st |}.

(** A new array object with contents [xs]. *)
Definition alloc (xs : list ListenerObject) (st : State) : loc * State :=
  (next st,
   {| _listeners := _listeners st; arrays := <[next st := xs]> (arrays st);
      next := S (next st); world := world st;
      registered := registered st; invoked := invoked st |}).

(** [this._listeners.get(event)] *)
Definition Map_get (event : K) (st : State) : option loc :=
  _listeners st !! event.

(** [this._listeners.set(event, l)] *)
Definition Map_set (event : K) (l : loc) (st : State) : State :=
  {| _listeners := <[event := l]> (_listeners st); arrays := arrays st;
     next := next st; world := world st;
     registered := registered st; invoked := invoked st |}.

(** [l.slice()]: a new array with the same elements. *)
Definition Array_slice (l : loc) (st : State) : loc * State :=
  alloc (read l st) st.

(** [l.filter(p)]: a new array. *)
Definition Array_filter (p : ListenerObject → bool) (l : loc) (st : State) : loc * State :=
  alloc (filter (λ lo, p lo) (read l st)) st.

(** Modelled from the spec: [insertOrderSorted(l, item)], whose source is not
    at hand, places [item] in the array [l] at [insert_position].  The callers
    drop its result and store [l], so it changes [l] in place. *)
Definition insertOrderSorted (l : loc) (item : ListenerObject) (st : State) : State :=
  write l (insertOrderSorted_list (read l st) item) st.

(** Ghost: a registration takes the next stamp. *)
Definition take_stamp (st : State) : nat * State :=
  (registered st,
   {| _listeners := _listeners st; arrays := arrays st;
      next := next st; world := world st;
      registered := S (registered st); invoked := invoked st |}).

(** *** The methods *)

(** [(this._listeners.get(event) || []).slice()]: an array is truthy, so the
    literal is used exactly when the key is absent. *)
Definition get_or_empty_slice (event : K) (st : State) : loc * State :=
  match Map_get event st with
  | Some l => Array_slice l st
  | None => let '(tmp, st0) := alloc [] st in Array_slice tmp st0
  end.

(** The common body of [on] and [once]; [flag] is the [once] property of the
    record literal. *)
Definition register (flag : option bool) (event : K) (f : fn) (ord : Z) (st : State) : State :=
  let '(list, st1) := get_or_empty_slice event st in
  let '(n, st2) := take_stamp st1 in
  let st3 := insertOrderSorted list
               {| listener := f; once := flag; order := ord; stamp := n |} st2 in
  Map_set event list st3.

(** [on(event, listener, order = 0)] *)
Definition on (event : K) (f : fn) (ord : Z) (st : State) : State :=
  register None event f ord st.

(** [once(event, listener, order = 0)]; the name [once] is taken by the
    record field. *)
Definition once_ (event : K) (f : fn) (ord : Z) (st : State) : State :=
  register (Some true) event f ord st.

(** [off(event, listener)] *)
Definition off (event : K) (f : fn) (st : State) : State :=
  match Map_get event st with
  | Some listeners =>
      let index := findIndex f (read listeners st) in
      if decide (index > -1)%Z
      then write listeners (splice1 index (read listeners st)) st
      else st
  | None => st
  end.

(** The method a call stands for. *)
Definition perform (c : Call) (st : State) : State :=
  match c with
  | CallOn event f ord => on event f ord st
  | CallOnce event f ord => once_ event f ord st
  | CallOff event f => off event f st
  end.

(** Entering [f(...args)]: the invocation is logged and the body leaves its
    outside state. *)
Definition enter (f : fn) (a : A) (st : State) : State :=
  {| _listeners := _listeners st; arrays := arrays st;
     next := next st; world := world_after (code f a (world st));
     registered := registered st; invoked := invoked st ++ [(f, a)] |}.

(** [listener(...args)]: the body runs, the registry calls it made are
    performed in order, and it returns or throws. *)
Definition invoke (f : fn) (a : A) (st : State) : Completion R X * State :=
  (completion (code f a (world st)),
   foldl (λ s c, perform c s) (enter f a st) (calls_made (code f a (world st)))).

(** [Array.prototype.map]: the length is read once; then, for each index
    [k] below it, the element is read from the array as it is at that moment
    and the callback is applied; an index that is no longer present leaves a
    hole in the result.  A throwing callback ends the loop.  [n] counts the
    indices still to visit. *)
Fixpoint Array_map_from (cb : ListenerObject → State → Completion R X * State)
    (arr : loc) (n k : nat) (st : State) : Completion (list (option R)) X * State :=
  match n with
  | 0 => (Normal [], st)
  | S n' =>
      match read arr st !! k with
      | None =>
          let '(c, st') := Array_map_from cb arr n' (S k) st in
          (cmap (cons None) c, st')
      | Some lo =>
          match cb lo st with
          | (Throw x, st') => (Throw x, st')
          | (Normal r, st') =>
              let '(c, st'') := Array_map_from cb arr n' (S k) st' in
              (cmap (cons (Some r)) c, st'')
          end
      end
  end.

(** [arr.map(cb)] *)
Definition Array_map (cb : ListenerObject → State → Completion R X * State)
    (arr : loc) (st : State) : Completion (list (option R)) X * State :=
  Array_map_from cb arr (length (read arr st)) 0 st.

(** [this._listeners.get(event)?.slice() || []]: the copy is truthy, so the
    literal is used exactly when the key is absent. *)
Definition get_slice_or_empty (event : K) (st : State) : loc * State :=
  match Map_get event st with
  | Some l => Array_slice l st
  | None => alloc [] st
  end.

(** [emit(event, ...args)] *)
Definition emit (event : K) (a : A) (st : State) : Completion (list (option R)) X * State :=
  let '(listeners, st1) := get_slice_or_empty event st in
  let '(kept, st2) := Array_filter not_once listeners st1 in
  let st3 := Map_set event kept st2 in
  Array_map (λ lo, invoke (listener lo) a) listeners st3.

(** The sequence stored for an event; empty when the key is absent. *)
Definition listeners_of (event : K) (st : State) : list ListenerObject :=
  match Map_get event st with
  | Some l => read l st
  | None => []
  end.

(** ** The states a registry goes through *)

(** What the owner of a registry does with it: the four methods, and
    anything else that changes the state outside the registry. *)
Inductive Op : Type :=
  | OpOn (event : K) (f : fn) (ord : Z)
  | OpOnce (event : K) (f : fn) (ord : Z)
  | OpOff (event : K) (f : fn)
  | OpEmit (event : K) (a : A)
  | OpOutside (w : W).

(** Code outside the registry leaves the outside state [w]. *)
Definition set_world (w : W) (st : State) : State :=
  {| _listeners := _listeners st; arrays := arrays st;
     next := next st; world := w;
     registered := registered st; invoked := invoked st |}.

(** The store after an operation; an [emit] that throws leaves a store as
    well. *)
Definition exec (op : Op) (st : State) : State :=
  match op with
  | OpOn event f ord => on event f ord st
  | OpOnce event f ord => once_ event f ord st
  | OpOff event f => off event f st
  | OpEmit event a => (emit event a st).2
  | OpOutside w => set_world w st
  end.

(** The stores of a registry: a new one, and any store an operation leaves. *)
Inductive reachable : State → Prop :=
  | reachable_new (w : W) : reachable (new_EventHooks w)
  | reachable_exec (op : Op) (st : State) : reachable st → reachable (exec op st).

(** ** The sequence-level reading of the methods *)

(** The record a registration creates. *)
Definition record (flag : option bool) (f : fn) (ord : Z) (n : nat) : ListenerObject :=
  {| listener := f; once := flag; order := ord; stamp := n |}.

(** What [off] leaves of a sequence: the first record whose callback is [f]
    is taken out. *)
Definition remove_first (f : fn) (xs : list ListenerObject) : list ListenerObject :=
  match list_find (λ lo, listener lo = f) xs with
  | Some (i, _) => delete i xs
  | None => xs
  end.

(** The effect of one registry call on the sequence of event [e], when the
    call is made at registration count [n]. *)
Definition seq_call (e : K) (c : Call) (n : nat) (xs : list ListenerObject)
  : list ListenerObject :=
  match c with
  | CallOn event f ord =>
      if decide (e = event) then insertOrderSorted_list xs (record None f ord n) else xs
  | CallOnce event f ord =>
      if decide (e = event) then insertOrderSorted_list xs (record (Some true) f ord n) else xs
  | CallOff event f =>
      if decide (e = event) then remove_first f xs else xs
  end.


(** The registration count after a call made at count [n]. *)
Definition count_call (c : Call) (n : nat) : nat :=
  match c with
  | CallOff _ _ => n
  | _ => S n
  end.

(** The effect of a series of calls on the sequence of event [e]. *)
Fixpoint seq_calls (e : K) (cs : list Call) (n : nat) (xs : list ListenerObject)
  : list ListenerObject :=
  match cs with
  | [] => xs
  | c :: cs' => seq_calls e cs' (count_call c n) (seq_call e c n xs)
  end.

(** The registration count after a series of calls. *)
Definition count_calls (cs : list Call) (n : nat) : nat :=
  foldl (λ m c, count_call c m) n cs.

(** An array without holes. *)
Definition dense (rs : list R) : list (option R) := Some <$> rs.

(** The loop of [emit] read over a fixed sequence: the listeners of [xs] are
    invoked from left to right on the current store, until one throws. *)
Fixpoint dispatch (xs : list ListenerObject) (a : A) (st : State)
  : Completion (list R) X * State :=
  match xs with
  | [] => (Normal [], st)
  | lo :: xs' =>
      match invoke (listener lo) a st with
      | (Throw x, st') => (Throw x, st')
      | (Normal r, st') =>
          let '(c, st'') := dispatch xs' a st' in (cmap (cons r) c, st'')
      end
  end.

(** The array [emit] maps over. *)
Definition snapshot (event : K) (st : State) : loc :=
  (get_slice_or_empty event st).1.

(** The store in which the map of [emit] starts: the first two statements
    of [emit] have run. *)
Definition prepare (event : K) (st : State) : State :=
  let '(listeners, st1) := get_slice_or_empty event st in
  let '(kept, st2) := Array_filter not_once listeners st1 in
  Map_set event kept st2.

(** The listener runs of a dispatch over [xs] that starts in outside state
    [w]: each listener runs in the outside state its predecessor left, and
    nothing runs after a throw. *)
Fixpoint runs (xs : list ListenerObject) (a : A) (w : W) : list Run :=
  match xs with
  | [] => []
  | lo :: xs' =>
      let r := code (listener lo) a w in
      r :: match completion r with
           | Normal _ => runs xs' a (world_after r)
           | Throw _ => []
           end
  end.

(** How a series of runs completes as a whole. *)
Definition outcome (rs : list Run) : Completion (list R) X :=
  foldr (λ r acc, match completion r with
                  | Normal v => cmap (cons v) acc
                  | Throw x => Throw x
                  end) (Normal []) rs.

(** The registry calls made in a series of runs, in order. *)
Definition calls_of (rs : list Run) : list Call :=
  concat (calls_made <$> rs).

(** The outside state after a series of runs that started in [w]. *)
Definition world_of (rs : list Run) (w : W) : W :=
  foldl (λ _ r, world_after r) w rs.

(** The call registers [L] for event [e]. *)
Definition registers (e : K) (L : fn) (c : Call) : Prop :=
  match c with
  | CallOn event f _ => event = e ∧ f = L
  | CallOnce event f _ => event = e ∧ f = L
  | CallOff _ _ => False
  end.

(** The operation registers [L] for event [e]. *)
Definition op_registers (e : K) (L : fn) (op : Op) : Prop :=
  match op with
  | OpOn event f _ => event = e ∧ f = L
  | OpOnce event f _ => event = e ∧ f = L
  | _ => False
  end.

(** No record of the sequence holds the callback [L]. *)
Definition absent (L : fn) (xs : list ListenerObject) : Prop :=
  Forall (λ x, listener x ≠ L) xs.

(** Well-formed stores: every stored reference has been allocated, and no
    array is stored under two keys. *)
Definition wf (st : State) : Prop :=
  (∀ e l, _listeners st !! e = Some l → l < next st) ∧
  (∀ e e' l, _listeners st !! e = Some l → _listeners st !! e' = Some l → e = e').

(** An allocated array that the registry does not hold. *)
Definition private (s : loc) (st : State) : Prop :=
  s < next st ∧ ∀ e, _listeners st !! e ≠ Some s.

(** [st'] comes after [st]: well-formedness is kept, and an array that the
    registry did not hold in [st] is neither stored nor written. *)
Definition preserves (st st' : State) : Prop :=
  (wf st → wf st') ∧
  ∀ s, private s st → private s st' ∧ arrays st' !! s = arrays st !! s.

End EventHooks.

(** ** The functions of the scenarios *)

(** Events are strings, arguments and results are integers, thrown values
    are strings, and the listeners keep no state of their own. *)

(** [f => f + 1] *)
Definition plus_one : fn := 1.
(** [f => f * 2] *)
Definition times_two : fn := 2.
(** [f => { H.off("x", times_two); return f; }] *)
Definition unsubscriber : fn := 3.
(** [function self(f) { H.once("y", self); return f; }] *)
Definition resubscriber : fn := 4.
(** [f => { throw "boom"; }] *)
Definition thrower : fn := 5.

(** The bodies of [plus_one], [times_two], [unsubscriber], [resubscriber] and
    [thrower]; every other function returns its argument. *)
Definition scenario_code (f : fn) (a : Z) (w : unit) : @Run string Z string unit :=
  match f with
  | 1 => {| calls_made := []; completion := Normal (a + 1)%Z; world_after := w |}
  | 2 => {| calls_made := []; completion := Normal (a * 2)%Z; world_after := w |}
  | 3 => {| calls_made := [CallOff "x" times_two]; completion := Normal a;
            world_after := w |}
  | 4 => {| calls_made := [CallOnce "y" resubscriber 0]; completion := Normal a;
            world_after := w |}
  | 5 => {| calls_made := []; completion := Throw "boom"; world_after := w |}
  | _ => {| calls_made := []; completion := Normal a; world_after := w |}
  end.

(** [new EventHooks()] *)
Definition H0 : @State string _ _ Z unit := new_EventHooks tt.

(** The same listeners without their registry calls. *)
Definition quiet {K A R X W : Type} (code : fn → A → W → @Run K R X W)
    (f : fn) (a : A) (w : W) : @Run K R X W :=
  {| calls_made := []; completion := completion (code f a w);
     world_after := world_after (code f a w) |}.

(** The store of a new registry after the operations [ops]. *)
Definition after (ops : list (@Op string Z unit)) : @State string _ _ Z unit :=
  foldl (λ s op, exec scenario_code op s) H0 ops.

(** The number of entries of an invocation log that are invocations of
    [f]. *)
Definition invocations_of {A : Type} (f : fn) (log : list (fn * A)) : nat :=
  length (filter (λ p, p.1 = f) log).

(** ** Further notions *)

(** The number of records of a sequence that hold the callback [f]. *)
Definition count_records (f : fn) (xs : list ListenerObject) : nat :=
  length (filter (λ lo, listener lo = f) xs).

(** The call is a call of [off]. *)
Definition is_off {K : Type} (c : @Call K) : Prop :=
  match c with
  | CallOff _ _ => True
  | _ => False
  end.

(** The operation is an [off]. *)
Definition is_off_op {K A W : Type} (op : @Op K A W) : Prop :=
  match op with
  | OpOff _ _ => True
  | _ => False
  end.

(** Every reference the map holds is the reference of an array. *)
Definition held `{Countable K} {A W : Type} (st : @State K _ _ A W) : Prop :=
  ∀ e l, _listeners st !! e = Some l → is_Some (arrays st !! l).

(** * Sequences *)

Section Sequences.

Lemma findIndex_remove_first f xs :
  (if decide (findIndex f xs > -1)%Z then splice1 (findIndex f xs) xs else xs)
  = remove_first f xs.
Proof.
  unfold findIndex, remove_first, splice1.
  destruct (list_find _ xs) as [[i lo]|]; case_decide; try lia; [|done].
  by rewrite Nat2Z.id.
Qed.

Lemma insertOrderSorted_list_nil item : insertOrderSorted_list [] item = [item].
Proof. done. Qed.

Lemma insertOrderSorted_list_cons x xs item :
  insertOrderSorted_list (x :: xs) item
  = if decide (order item < order x)%Z
    then item :: x :: xs
    else x :: insertOrderSorted_list xs item.
Proof.
  unfold insertOrderSorted_list, insert_position. cbn [list_find].
  case_decide; [done|].
  by destruct (list_find _ xs) as [[i y]|].
Qed.

Lemma remove_first_cons f x xs :
  remove_first f (x :: xs)
  = if decide (listener x = f) then xs else x :: remove_first f xs.
Proof.
  unfold remove_first. cbn [list_find].
  case_decide; [done|].
  by destruct (list_find _ xs) as [[i y]|].
Qed.

Lemma insertOrderSorted_list_Permutation xs item :
  insertOrderSorted_list xs item ≡ₚ item :: xs.
Proof.
  unfold insertOrderSorted_list.
  by rewrite <- Permutation_middle, take_drop.
Qed.

Lemma remove_first_sublist f xs : remove_first f xs `sublist_of` xs.
Proof.
  unfold remove_first. destruct (list_find _ xs) as [[i y]|]; [|done].
  apply sublist_delete.
Qed.

Global Instance before_trans : Transitive before.
Proof. intros x y z [?|[? ?]] [?|[? ?]]; unfold before; lia. Qed.

Lemma ordered_mono n m xs : n ≤ m → ordered n xs → ordered m xs.
Proof.
  intros Hle [Hs Hf]. split; [done|].
  eapply Forall_impl; [done|]. simpl. lia.
Qed.

Lemma ordered_sublist n xs ys : ys `sublist_of` xs → ordered n xs → ordered n ys.
Proof.
  intros Hsub [Hs Hf]. split.
  - clear Hf. induction Hsub as [|x l1 l2 Hsub IH|x l1 l2 Hsub IH]; [done|..].
    + apply StronglySorted_cons in Hs as [Hx Hs].
      apply StronglySorted_cons. split; [|by apply IH].
      rewrite Forall_forall in Hx |- *. intros y Hy. apply Hx.
      by eapply elem_of_sublist.
    + apply StronglySorted_cons in Hs as [_ Hs]. by apply IH.
  - rewrite Forall_forall in Hf |- *. intros y Hy. apply Hf.
    by eapply elem_of_sublist.
Qed.

Lemma ordered_insert n xs flag f ord :
  ordered n xs →
  ordered (S n) (insertOrderSorted_list xs
                   {| listener := f; once := flag; order := ord; stamp := n |}).
Proof.
  intros [Hs Hf]. split.
  - induction xs as [|x xs IH].
    + rewrite insertOrderSorted_list_nil. repeat constructor.
    + apply StronglySorted_cons in Hs as [Hx Hs].
      apply Forall_cons in Hf as [Hn Hf].
      rewrite insertOrderSorted_list_cons. simpl. case_decide as Hlt.
      * apply StronglySorted_cons. split; [|by apply StronglySorted_cons].
        constructor; [by left|].
        eapply Forall_impl; [exact Hx|]. intros y Hy.
        left. simpl. destruct Hy as [?|[? ?]]; lia.
      * apply StronglySorted_cons. split; [|by apply IH].
        rewrite insertOrderSorted_list_Permutation. constructor; [|done].
        unfold before. simpl. lia.
  - rewrite insertOrderSorted_list_Permutation. constructor; [simpl; lia|].
    eapply Forall_impl; [done|]. simpl. lia.
Qed.

Lemma ordered_lookup n xs i j x y :
  ordered n xs → i < j → xs !! i = Some x → xs !! j = Some y →
  (order x ≤ order y)%Z ∧ (order x = order y → stamp x < stamp y).
Proof.
  intros [Hs _] Hij Hi Hj.
  assert (before x y) as [?|[? ?]]; [|lia..].
  rewrite <- (take_drop_middle xs i x Hi) in Hs, Hj.
  apply StronglySorted_app in Hs as (_ & _ & Hs).
  apply StronglySorted_cons in Hs as [Hx _].
  rewrite Forall_forall in Hx. apply Hx.
  assert (length (take i xs) = i) as Hlen
    by (apply length_take_le; apply lookup_lt_Some in Hi; lia).
  rewrite lookup_app_r in Hj by lia. rewrite Hlen in Hj.
  destruct (j - i) as [|d] eqn:Hd; [lia|]. simpl in Hj.
  by eapply list_elem_of_lookup_2.
Qed.

(** Where [insertOrderSorted] puts a record. *)
Lemma insert_position_spec xs item :
  insert_position xs item ≤ length xs ∧
  (∀ j x, xs !! j = Some x → j < insert_position xs item → (order x ≤ order item)%Z) ∧
  (∀ x, xs !! insert_position xs item = Some x → (order item < order x)%Z).
Proof.
  unfold insert_position.
  destruct (list_find _ xs) as [[i y]|] eqn:Hfind.
  - apply list_find_Some in Hfind as (Hi & Hy & Hbefore).
    split_and!.
    + apply lookup_lt_Some in Hi. lia.
    + intros j x Hj Hlt. specialize (Hbefore j x Hj Hlt). lia.
    + intros x Hx. by simplify_eq.
  - apply list_find_None in Hfind. split_and!; [done|..].
    + intros j x Hj _. rewrite Forall_forall in Hfind.
      apply list_elem_of_lookup_2 in Hj. specialize (Hfind x Hj). simpl in Hfind. lia.
    + intros x Hx. apply lookup_lt_Some in Hx. lia.
Qed.

End Sequences.

(** * The store *)

Section Store.

Context {K : Type} `{Countable K}.
Context {A R X W : Type}.
Variable code : fn → A → W → @Run K R X W.

Implicit Types (st : @State K _ _ A W) (e : K) (f : fn) (a : A).
Implicit Types (xs : list ListenerObject).

Lemma wf_new (w : W) : wf (new_EventHooks (K:=K) (A:=A) w).
Proof. split; intros *; simpl; by rewrite lookup_empty. Qed.

(** *** Registration *)

Lemma register_fields flag e f ord st :
  world (register flag e f ord st) = world st ∧
  registered (register flag e f ord st) = S (registered st) ∧
  invoked (register flag e f ord st) = invoked st ∧
  next st < next (register flag e f ord st).
Proof.
  unfold register, get_or_empty_slice, Map_get.
  destruct (_listeners st !! e); simpl; repeat split; lia.
Qed.

Lemma register_listeners_of flag e f ord st e' :
  wf st →
  listeners_of e' (register flag e f ord st)
  = if decide (e' = e)
    then insertOrderSorted_list (listeners_of e st) (record flag f ord (registered st))
    else listeners_of e' st.
Proof.
  intros [Hlt _].
  unfold listeners_of, register, get_or_empty_slice, Map_get, read.
  destruct (_listeners st !! e) as [l|] eqn:He; simpl; unfold read; simpl;
    (destruct (decide (e' = e)) as [->|Hne];
     [ rewrite !lookup_insert_eq; simpl; by rewrite ?lookup_insert_eq
     | rewrite lookup_insert_ne by done;
       destruct (_listeners st !! e') as [l'|] eqn:He'; [|done];
       apply Hlt in He'; by rewrite !lookup_insert_ne by lia ]).
Qed.

Lemma register_wf flag e f ord st : wf st → wf (register flag e f ord st).
Proof.
  intros [Hlt Hinj].
  unfold register, get_or_empty_slice, Map_get.
  destruct (_listeners st !! e) as [l|] eqn:He; simpl; split; simpl.
  - intros e1 l1. rewrite lookup_insert. case_decide; [intros [= <-]; lia|].
    intros ?%Hlt. lia.
  - intros e1 e2 l1. rewrite !lookup_insert.
    repeat case_decide; subst; try done.
    + intros [= <-] ?%Hlt. lia.
    + intros ?%Hlt [= <-]. lia.
    + apply Hinj.
  - intros e1 l1. rewrite lookup_insert. case_decide; [intros [= <-]; lia|].
    intros ?%Hlt. lia.
  - intros e1 e2 l1. rewrite !lookup_insert.
    repeat case_decide; subst; try done.
    + intros [= <-] ?%Hlt. lia.
    + intros ?%Hlt [= <-]. lia.
    + apply Hinj.
Qed.

Lemma register_private flag e f ord st s :
  private s st →
  private s (register flag e f ord st) ∧
  arrays (register flag e f ord st) !! s = arrays st !! s.
Proof.
  intros [Hs Hno].
  unfold private, register, get_or_empty_slice, Map_get.
  destruct (_listeners st !! e) as [l|] eqn:He; simpl;
    (split; [split; [lia|] | by rewrite !lookup_insert_ne by lia]);
    intros e1; rewrite lookup_insert; case_decide; [intros [= <-]; lia | apply Hno
                                                   |intros [= <-]; lia | apply Hno].
Qed.

(** *** Removal *)

Lemma off_fields e f st :
  world (off e f st) = world st ∧
  registered (off e f st) = registered st ∧
  invoked (off e f st) = invoked st ∧
  next (off e f st) = next st ∧
  _listeners (off e f st) = _listeners st.
Proof.
  unfold off, Map_get. destruct (_listeners st !! e); [|done].
  by case_decide.
Qed.

Lemma off_same e f st :
  listeners_of e (off e f st) = remove_first f (listeners_of e st).
Proof.
  unfold listeners_of, Map_get.
  destruct (off_fields e f st) as (_ & _ & _ & _ & ->).
  unfold off, Map_get.
  destruct (_listeners st !! e) as [l|] eqn:He; [|done].
  rewrite <- findIndex_remove_first.
  case_decide; [|done].
  unfold read, write; simpl. by rewrite lookup_insert_eq.
Qed.

Lemma off_other e f st e' :
  wf st → e' ≠ e → listeners_of e' (off e f st) = listeners_of e' st.
Proof.
  intros [_ Hinj] Hne. unfold listeners_of, Map_get.
  destruct (off_fields e f st) as (_ & _ & _ & _ & ->).
  destruct (_listeners st !! e') as [l'|] eqn:He'; [|done].
  unfold off, Map_get.
  destruct (_listeners st !! e) as [l|] eqn:He; [|done].
  case_decide; [|done].
  unfold read, write; simpl. rewrite lookup_insert_ne; [done|].
  intros ->. by apply Hne, (Hinj e' e l').
Qed.

Lemma off_listeners_of e f st e' :
  wf st →
  listeners_of e' (off e f st)
  = if decide (e' = e) then remove_first f (listeners_of e st) else listeners_of e' st.
Proof.
  intros Hwf. case_decide as He; [subst; apply off_same | by apply off_other].
Qed.

Lemma off_wf e f st : wf st → wf (off e f st).
Proof.
  unfold wf. by destruct (off_fields e f st) as (_ & _ & _ & -> & ->).
Qed.

Lemma off_private e f st s :
  private s st →
  private s (off e f st) ∧ arrays (off e f st) !! s = arrays st !! s.
Proof.
  intros Hp. split.
  - unfold private. by destruct (off_fields e f st) as (_ & _ & _ & -> & ->).
  - destruct Hp as [_ Hno]. unfold off, Map_get.
    destruct (_listeners st !! e) as [l|] eqn:He; [|done].
    case_decide; [|done]. simpl. rewrite lookup_insert_ne; [done|].
    intros ->. by apply (Hno e).
Qed.

(** *** What a listener run may do to the store *)

Lemma preserves_refl st : preserves st st.
Proof. by split. Qed.

Lemma preserves_trans st1 st2 st3 :
  preserves st1 st2 → preserves st2 st3 → preserves st1 st3.
Proof.
  intros [Hw1 Hp1] [Hw2 Hp2]. split; [auto|].
  intros s Hs. destruct (Hp1 s Hs) as [Hs2 E1].
  destruct (Hp2 s Hs2) as [Hs3 E2]. split; [done|]. by rewrite E2.
Qed.

Lemma preserves_perform (c : @Call K) st : preserves st (perform c st).
Proof.
  destruct c; simpl; unfold on, once_; split;
    first [ apply register_wf | apply off_wf
          | intros s Hs; first [ by apply register_private | by apply off_private ] ].
Qed.

Lemma preserves_performs (cs : list (@Call K)) st :
  preserves st (foldl (λ s c, perform c s) st cs).
Proof.
  revert st. induction cs as [|c cs IH]; intros st; simpl.
  - apply preserves_refl.
  - eapply preserves_trans; [apply preserves_perform | apply IH].
Qed.

Lemma preserves_invoke f a st : preserves st (invoke code f a st).2.
Proof.
  unfold invoke; simpl.
  eapply preserves_trans; [|apply preserves_performs].
  by split.
Qed.

(** *** The array [emit] maps over is out of the listeners' reach *)

Lemma cmap_cons_dense (r : R) (c : Completion (list R) X) :
  cmap (cons (Some r)) (cmap dense c) = cmap dense (cmap (cons r) c).
Proof. by destruct c. Qed.

Lemma Array_map_from_dispatch a s xs st n k :
  private s st → arrays st !! s = Some xs → length xs = k + n →
  Array_map_from (λ lo, invoke code (listener lo) a) s n k st
  = (cmap dense (dispatch code (drop k xs) a st).1, (dispatch code (drop k xs) a st).2).
Proof.
  revert k st. induction n as [|n IH]; intros k st Hp Hs Hlen.
  - rewrite drop_ge by lia. done.
  - destruct (lookup_lt_is_Some_2 xs k) as [lo Hlo]; [lia|].
    rewrite (drop_S _ _ _ Hlo). cbn [Array_map_from dispatch].
    replace (read s st) with xs by (unfold read; by rewrite Hs). rewrite Hlo.
    pose proof (preserves_invoke (listener lo) a st) as [_ Hpres].
    destruct (Hpres s Hp) as [Hp' Hs'].
    destruct (invoke code (listener lo) a st) as [[r|x] st']; [|done].
    cbn [fst snd] in *. rewrite IH; [| done | by rewrite Hs' | lia].
    destruct (dispatch code (drop (S k) xs) a st') as [c st'']. cbn [fst snd].
    by rewrite cmap_cons_dense.
Qed.

Lemma snapshot_prepare e st :
  wf st →
  private (snapshot e st) (prepare e st) ∧
  arrays (prepare e st) !! snapshot e st = Some (listeners_of e st).
Proof.
  intros [Hlt _].
  unfold private, snapshot, prepare, listeners_of, get_slice_or_empty, Map_get.
  destruct (_listeners st !! e) as [l|] eqn:He; simpl;
    (split; [split; [lia|] | rewrite lookup_insert_ne by lia; by rewrite lookup_insert_eq]);
    intros e1; rewrite lookup_insert; (case_decide; [intros [=]; lia|]);
    intros ?%Hlt; lia.
Qed.

Lemma emit_dispatch e a st :
  wf st →
  emit code e a st
  = (cmap dense (dispatch code (listeners_of e st) a (prepare e st)).1,
     (dispatch code (listeners_of e st) a (prepare e st)).2).
Proof.
  intros Hwf. destruct (snapshot_prepare e st Hwf) as [Hp Hs].
  rewrite <- (drop_0 (listeners_of e st)).
  rewrite <- (Array_map_from_dispatch a (snapshot e st) _ _ (length (listeners_of e st)) 0 Hp Hs)
    by done.
  assert (read (snapshot e st) (prepare e st) = listeners_of e st) as Hread
    by (unfold read; by rewrite Hs).
  unfold emit, Array_map, prepare, snapshot in *.
  destruct (get_slice_or_empty e st) as [listeners st1]. simpl in *.
  by rewrite Hread.
Qed.

Lemma prepare_fields e st :
  world (prepare e st) = world st ∧
  registered (prepare e st) = registered st ∧
  invoked (prepare e st) = invoked st.
Proof.
  unfold prepare, get_slice_or_empty, Map_get.
  by destruct (_listeners st !! e).
Qed.

Lemma prepare_wf e st : wf st → wf (prepare e st).
Proof.
  intros [Hlt Hinj].
  unfold prepare, get_slice_or_empty, Map_get.
  destruct (_listeners st !! e) as [l|] eqn:He; simpl; split; simpl.
  - intros e1 l1. rewrite lookup_insert. case_decide; [intros [= <-]; lia|].
    intros ?%Hlt. lia.
  - intros e1 e2 l1. rewrite !lookup_insert.
    repeat case_decide; subst; try done.
    + intros [= <-] ?%Hlt. lia.
    + intros ?%Hlt [= <-]. lia.
    + apply Hinj.
  - intros e1 l1. rewrite lookup_insert. case_decide; [intros [= <-]; lia|].
    intros ?%Hlt. lia.
  - intros e1 e2 l1. rewrite !lookup_insert.
    repeat case_decide; subst; try done.
    + intros [= <-] ?%Hlt. lia.
    + intros ?%Hlt [= <-]. lia.
    + apply Hinj.
Qed.

Lemma prepare_listeners_of e st e' :
  wf st →
  listeners_of e' (prepare e st)
  = if decide (e' = e)
    then filter (λ lo, not_once lo) (listeners_of e st)
    else listeners_of e' st.
Proof.
  intros [Hlt _].
  unfold listeners_of, prepare, get_slice_or_empty, Map_get.
  destruct (_listeners st !! e) as [l|] eqn:He; simpl; unfold read; simpl;
    (destruct (decide (e' = e)) as [->|Hne];
     [ rewrite !lookup_insert_eq; simpl; by rewrite ?lookup_insert_eq
     | rewrite lookup_insert_ne by done;
       destruct (_listeners st !! e') as [l'|] eqn:He'; [|done];
       apply Hlt in He'; by rewrite !lookup_insert_ne by lia ]).
Qed.

(** *** Listener runs and dispatch, sequence by sequence *)

Lemma perform_spec (c : @Call K) st :
  wf st →
  world (perform c st) = world st ∧
  invoked (perform c st) = invoked st ∧
  registered (perform c st) = count_call c (registered st) ∧
  wf (perform c st) ∧
  ∀ e, listeners_of e (perform c st) = seq_call e c (registered st) (listeners_of e st).
Proof.
  intros Hwf. destruct c as [ev f ord|ev f ord|ev f]; simpl; unfold on, once_.
  - destruct (register_fields None ev f ord st) as (-> & -> & -> & _).
    split_and!; [done | done | done | by apply register_wf |].
    intros e. rewrite register_listeners_of by done. by case_decide; subst.
  - destruct (register_fields (Some true) ev f ord st) as (-> & -> & -> & _).
    split_and!; [done | done | done | by apply register_wf |].
    intros e. rewrite register_listeners_of by done. by case_decide; subst.
  - destruct (off_fields ev f st) as (-> & -> & -> & _).
    split_and!; [done | done | done | by apply off_wf |].
    intros e. rewrite off_listeners_of by done. by case_decide; subst.
Qed.

Lemma seq_calls_app e (cs1 cs2 : list (@Call K)) n xs :
  seq_calls e (cs1 ++ cs2) n xs
  = seq_calls e cs2 (count_calls cs1 n) (seq_calls e cs1 n xs).
Proof.
  revert n xs. induction cs1 as [|c cs1 IH]; intros n xs; simpl; [done|].
  by rewrite IH.
Qed.

Lemma count_calls_app (cs1 cs2 : list (@Call K)) n :
  count_calls (cs1 ++ cs2) n = count_calls cs2 (count_calls cs1 n).
Proof. unfold count_calls. by rewrite foldl_app. Qed.

Lemma performs_spec (cs : list (@Call K)) st :
  wf st →
  let st' := foldl (λ s c, perform c s) st cs in
  world st' = world st ∧
  invoked st' = invoked st ∧
  registered st' = count_calls cs (registered st) ∧
  wf st' ∧
  ∀ e, listeners_of e st' = seq_calls e cs (registered st) (listeners_of e st).
Proof.
  revert st. induction cs as [|c cs IH]; intros st Hwf; simpl; [done|].
  destruct (perform_spec c st Hwf) as (Hw & Hi & Hr & Hwf' & Hl).
  destruct (IH _ Hwf') as (-> & -> & -> & ? & Hl').
  rewrite Hr. split_and!; [done..|].
  intros e. by rewrite Hl', Hl, Hr.
Qed.

Lemma invoke_spec f a st :
  wf st →
  let r := code f a (world st) in
  let st' := (invoke code f a st).2 in
  (invoke code f a st).1 = completion r ∧
  world st' = world_after r ∧
  invoked st' = invoked st ++ [(f, a)] ∧
  registered st' = count_calls (calls_made r) (registered st) ∧
  wf st' ∧
  ∀ e, listeners_of e st' = seq_calls e (calls_made r) (registered st) (listeners_of e st).
Proof.
  intros Hwf. unfold invoke. cbn [fst snd].
  assert (wf (enter code f a st)) as Hwf' by done.
  destruct (performs_spec (calls_made (code f a (world st))) _ Hwf')
    as (-> & -> & -> & ? & Hl).
  split_and!; [done..|]. intros e. by rewrite Hl.
Qed.

Lemma dispatch_spec xs a st :
  wf st →
  let rs := runs code xs a (world st) in
  let st' := (dispatch code xs a st).2 in
  (dispatch code xs a st).1 = outcome rs ∧
  world st' = world_of rs (world st) ∧
  invoked st' = invoked st ++ ((λ lo, (listener lo, a)) <$> take (length rs) xs) ∧
  registered st' = count_calls (calls_of rs) (registered st) ∧
  wf st' ∧
  ∀ e, listeners_of e st' = seq_calls e (calls_of rs) (registered st) (listeners_of e st).
Proof.
  revert st. induction xs as [|lo xs IH]; intros st Hwf.
  - simpl. by rewrite app_nil_r.
  - cbn [dispatch runs].
    destruct (invoke_spec (listener lo) a st Hwf) as (Hc & Hw & Hi & Hr & Hwf' & Hl).
    destruct (invoke code (listener lo) a st) as [c st1]. cbn [fst snd] in *.
    rewrite <- Hc.
    destruct c as [r|x].
    + destruct (IH st1 Hwf') as (Hc2 & Hw2 & Hi2 & Hr2 & Hwf2 & Hl2).
      destruct (dispatch code xs a st1) as [c2 st2]. cbn [fst snd] in *.
      rewrite Hw in *. unfold outcome, calls_of, world_of.
      cbn [foldr fmap list_fmap concat foldl length take].
      rewrite <- Hc. split_and!.
      * by rewrite Hc2.
      * done.
      * rewrite Hi2, Hi, <- app_assoc. done.
      * by rewrite Hr2, Hr, count_calls_app.
      * done.
      * intros e. by rewrite Hl2, Hl, Hr, seq_calls_app.
    + unfold outcome, calls_of, world_of.
      cbn [foldr fmap list_fmap concat foldl length take].
      rewrite <- Hc, app_nil_r. by split_and!.
Qed.

Lemma emit_spec e a st :
  wf st →
  let rs := runs code (listeners_of e st) a (world st) in
  let st' := (emit code e a st).2 in
  (emit code e a st).1 = cmap dense (outcome rs) ∧
  world st' = world_of rs (world st) ∧
  invoked st'
  = invoked st ++ ((λ lo, (listener lo, a)) <$> take (length rs) (listeners_of e st)) ∧
  registered st' = count_calls (calls_of rs) (registered st) ∧
  wf st' ∧
  ∀ e', listeners_of e' st'
        = seq_calls e' (calls_of rs) (registered st)
            (if decide (e' = e)
             then filter (λ lo, not_once lo) (listeners_of e st)
             else listeners_of e' st).
Proof.
  intros Hwf. rewrite emit_dispatch by done. cbn [fst snd].
  destruct (prepare_fields e st) as (Hw & Hr & Hi).
  destruct (dispatch_spec (listeners_of e st) a (prepare e st) (prepare_wf e st Hwf))
    as (-> & -> & -> & -> & ? & Hl).
  rewrite Hw, Hr, Hi. split_and!; [done..|].
  intros e'. by rewrite Hl, Hw, Hr, prepare_listeners_of.
Qed.

(** *** Invariants of the reachable stores *)

Lemma ordered_seq_call e (c : @Call K) n xs :
  ordered n xs → ordered (count_call c n) (seq_call e c n xs).
Proof.
  intros Ho. destruct c as [ev f ord|ev f ord|ev f]; simpl; case_decide;
    first [ by apply ordered_insert
          | by apply (ordered_mono n); [lia|]
          | eapply ordered_sublist; [apply remove_first_sublist | done]
          | done ].
Qed.

Lemma ordered_seq_calls e (cs : list (@Call K)) n xs :
  ordered n xs → ordered (count_calls cs n) (seq_calls e cs n xs).
Proof.
  revert n xs. induction cs as [|c cs IH]; intros n xs Ho; simpl; [done|].
  by apply IH, ordered_seq_call.
Qed.

Lemma reachable_invariant st :
  reachable code st →
  wf st ∧ ∀ e, ordered (registered st) (listeners_of e st).
Proof.
  induction 1 as [w|op st Hr [Hwf Ho]].
  - split; [apply wf_new|]. intros e. unfold listeners_of, Map_get. simpl.
    rewrite lookup_empty. split; constructor.
  - destruct op as [ev f ord|ev f ord|ev f|ev a|w]; simpl.
    + destruct (perform_spec (CallOn ev f ord) st Hwf) as (_ & _ & Hn & ? & Hl).
      simpl in *. split; [done|]. intros e. rewrite Hl, Hn.
      apply (ordered_seq_call e (CallOn ev f ord)), Ho.
    + destruct (perform_spec (CallOnce ev f ord) st Hwf) as (_ & _ & Hn & ? & Hl).
      simpl in *. split; [done|]. intros e. rewrite Hl, Hn.
      apply (ordered_seq_call e (CallOnce ev f ord)), Ho.
    + destruct (perform_spec (CallOff ev f) st Hwf) as (_ & _ & Hn & ? & Hl).
      simpl in *. split; [done|]. intros e. rewrite Hl, Hn.
      apply (ordered_seq_call e (CallOff ev f)), Ho.
    + destruct (emit_spec ev a st Hwf) as (_ & _ & _ & Hn & ? & Hl).
      split; [done|]. intros e. rewrite Hl, Hn.
      apply ordered_seq_calls. case_decide; [|done].
      eapply ordered_sublist; [apply sublist_filter | apply Ho].
    + done.
Qed.

Lemma reachable_wf st : reachable code st → wf st.
Proof. by intros [? _]%reachable_invariant. Qed.

End Store.

(** * The methods on reachable stores *)

Section Claims.

Context {K : Type} `{Countable K}.
Context {A R X W : Type}.
Variable code : fn → A → W → @Run K R X W.

Implicit Types (st : @State K _ _ A W) (e : K) (f : fn) (a : A).
Implicit Types (xs : list ListenerObject).

Lemma register_inserts flag e f ord st :
  wf st →
  ∃ i, first_greater ord (listeners_of e st) i ∧
       listeners_of e (register flag e f ord st)
       = take i (listeners_of e st)
         ++ record flag f ord (registered st) :: drop i (listeners_of e st).
Proof.
  intros Hwf.
  exists (insert_position (listeners_of e st) (record flag f ord (registered st))).
  split; [apply (insert_position_spec _ (record flag f ord (registered st)))|].
  rewrite register_listeners_of by done. by rewrite decide_True.
Qed.

(** C1. After any sequence of operations, the sequence stored for an event is
    in non-decreasing [order], and records of equal [order] stand in the
    order in which they were registered; [on] and [once] put the new record
    at the first position whose record has a strictly greater [order], at the
    end if there is none, and leave the other records as they stand. *)
Theorem C1_sequences_stay_ordered st e :
  reachable code st →
  (∀ i j x y, i < j →
     listeners_of e st !! i = Some x → listeners_of e st !! j = Some y →
     (order x ≤ order y)%Z ∧ (order x = order y → stamp x < stamp y)) ∧
  (∀ x, x ∈ listeners_of e st → stamp x < registered st) ∧
  (∀ f ord,
     registered (on e f ord st) = S (registered st) ∧
     ∃ i, first_greater ord (listeners_of e st) i ∧
          listeners_of e (on e f ord st)
          = take i (listeners_of e st)
            ++ record None f ord (registered st) :: drop i (listeners_of e st)) ∧
  (∀ f ord,
     registered (once_ e f ord st) = S (registered st) ∧
     ∃ i, first_greater ord (listeners_of e st) i ∧
          listeners_of e (once_ e f ord st)
          = take i (listeners_of e st)
            ++ record (Some true) f ord (registered st) :: drop i (listeners_of e st)).
Proof.
  intros Hr. destruct (reachable_invariant code st Hr) as [Hwf Ho].
  split_and!.
  - intros i j x y. apply (ordered_lookup (registered st)). apply Ho.
  - intros x Hx. destruct (Ho e) as [_ Hf]. rewrite Forall_forall in Hf. by apply Hf.
  - intros f ord. split; [apply register_fields | by apply register_inserts].
  - intros f ord. split; [apply register_fields | by apply register_inserts].
Qed.

Lemma remove_first_middle f l1 lo l2 :
  listener lo = f → Forall (λ x, listener x ≠ f) l1 →
  remove_first f (l1 ++ lo :: l2) = l1 ++ l2.
Proof.
  intros Hlo Hl1. induction Hl1 as [|x l1 Hx _ IH]; simpl.
  - rewrite remove_first_cons. by rewrite decide_True.
  - rewrite remove_first_cons. rewrite decide_False by done. by rewrite IH.
Qed.

Lemma off_no_match e f st :
  Forall (λ x, listener x ≠ f) (listeners_of e st) → off e f st = st.
Proof.
  unfold off, listeners_of, Map_get, findIndex.
  destruct (_listeners st !! e) as [l|]; [|done].
  intros Hno. apply (list_find_None (λ lo, listener lo = f)) in Hno. rewrite Hno.
  by rewrite decide_False by lia.
Qed.

(** C4. [off(event, listener)] takes out of the event's sequence the first
    record whose callback is [listener], and nothing else, also when later
    records hold the same callback; when no record of the sequence holds it
    (never registered, already removed, unknown event) the store is left
    exactly as it was.  [off] returns a store and has no other way to
    complete. *)
Theorem C4_off_removes_first_match st e f :
  (∀ l1 lo l2,
     listeners_of e st = l1 ++ lo :: l2 →
     listener lo = f → Forall (λ x, listener x ≠ f) l1 →
     listeners_of e (off e f st) = l1 ++ l2) ∧
  (Forall (λ x, listener x ≠ f) (listeners_of e st) → off e f st = st) ∧
  (Map_get e st = None → off e f st = st).
Proof.
  split_and!.
  - intros l1 lo l2 Hxs Hlo Hl1. rewrite off_same, Hxs.
    by apply remove_first_middle.
  - apply off_no_match.
  - intros Hnone. apply off_no_match. unfold listeners_of. by rewrite Hnone.
Qed.



Lemma runs_elem xs a w r :
  r ∈ runs code xs a w → ∃ lo w', lo ∈ xs ∧ r = code (listener lo) a w'.
Proof.
  revert w. induction xs as [|lo xs IH]; intros w; simpl; [by intros ?%elem_of_nil|].
  intros [->|Hr]%elem_of_cons.
  - exists lo, w. split; [left|done].
  - destruct (completion (code (listener lo) a w)); [|by apply elem_of_nil in Hr].
    destruct (IH _ Hr) as (lo' & w' & ? & ?). exists lo', w'. split; [by right|done].
Qed.

Lemma outcome_Throw (rs : list (@Run K R X W)) x :
  outcome rs = Throw x → ∃ r, r ∈ rs ∧ completion r = Throw x.
Proof.
  induction rs as [|r rs IH]; simpl; [done|].
  destruct (completion r) as [v|y] eqn:Hc.
  - destruct (outcome rs) as [vs|y]; simpl; [done|].
    intros [= ->]. destruct IH as (r' & ? & ?); [done|].
    exists r'. split; [by right|done].
  - intros [= ->]. exists r. split; [left|done].
Qed.

Lemma outcome_Normal_iff (rs : list (@Run K R X W)) vs :
  outcome rs = Normal vs ↔ Forall2 (λ r v, completion r = Normal v) rs vs.
Proof.
  revert vs. induction rs as [|r rs IH]; intros vs; simpl.
  - split; [intros [= <-]; constructor | by intros ->%Forall2_nil_inv_l].
  - destruct (completion r) as [v|y] eqn:Hc.
    + destruct (outcome rs) as [vs'|y] eqn:Ho; simpl.
      * split.
        -- intros [= <-]. constructor; [done|]. by apply IH.
        -- intros (v' & vs'' & Hv & Hvs & ->)%Forall2_cons_inv_l.
           rewrite Hc in Hv. simplify_eq. apply IH in Hvs. by simplify_eq.
      * split; [done|].
        intros (v' & vs'' & Hv & Hvs & ->)%Forall2_cons_inv_l.
        by apply IH in Hvs.
    + split; [done|].
      intros (v' & vs'' & Hv & _)%Forall2_cons_inv_l. by rewrite Hc in Hv.
Qed.

Lemma runs_Normal_length xs a w vs :
  outcome (runs code xs a w) = Normal vs →
  length (runs code xs a w) = length xs ∧ length vs = length xs.
Proof.
  revert w vs. induction xs as [|lo xs IH]; intros w vs; simpl.
  - by intros [= <-].
  - destruct (completion (code (listener lo) a w)) as [v|y] eqn:Hc; [|done].
    destruct (outcome (runs code xs a (world_after (code (listener lo) a w))))
      as [vs'|y] eqn:Ho; simpl; [|done].
    intros [= <-]. destruct (IH _ _ Ho) as [Hl1 Hl2]. simpl. by rewrite Hl1, Hl2.
Qed.

Lemma runs_lookup xs a w i r :
  runs code xs a w !! i = Some r →
  ∃ lo, xs !! i = Some lo ∧
        r = code (listener lo) a (world_of (take i (runs code xs a w)) w).
Proof.
  revert w i. induction xs as [|lo xs IH]; intros w i; simpl; [done|].
  destruct i as [|i]; simpl.
  - intros [= <-]. by exists lo.
  - destruct (completion (code (listener lo) a w)); [|done].
    intros Hr. destruct (IH _ _ Hr) as (lo' & ? & ->). by exists lo'.
Qed.

Lemma runs_app l1 l2 a w vs :
  outcome (runs code l1 a w) = Normal vs →
  runs code (l1 ++ l2) a w
  = runs code l1 a w ++ runs code l2 a (world_of (runs code l1 a w) w).
Proof.
  revert w vs. induction l1 as [|lo l1 IH]; intros w vs; simpl; [done|].
  destruct (completion (code (listener lo) a w)) as [v|y] eqn:Hc; [|done].
  destruct (outcome (runs code l1 a (world_after (code (listener lo) a w))))
    as [vs'|y] eqn:Ho; simpl; [|done].
  intros _. f_equal. by eapply IH.
Qed.

Lemma outcome_app_Throw (rs : list (@Run K R X W)) vs r x :
  outcome rs = Normal vs → completion r = Throw x → outcome (rs ++ [r]) = Throw x.
Proof.
  revert vs. induction rs as [|r' rs IH]; intros vs; simpl.
  - intros _ ->. done.
  - destruct (completion r') as [v|y]; [|done].
    destruct (outcome rs) as [vs'|y] eqn:Ho; simpl; [|done].
    intros _ Hr. by rewrite (IH vs').
Qed.

(** C8. No method fails on its own account.  [on], [once] and [off] return a
    store for every input; on an event the registry has never seen, [on] and
    [once] start its sequence and [off] changes nothing.  [emit] on an event
    without listeners, known or not, returns the empty array and invokes
    nothing; and when [emit] throws, what it throws was thrown by one of the
    event's listeners. *)
Theorem C8_methods_are_total st e a :
  reachable code st →
  (Map_get e st = None → listeners_of e st = []) ∧
  (Map_get e st = None →
   ∀ f ord, listeners_of e (on e f ord st) = [record None f ord (registered st)] ∧
            listeners_of e (once_ e f ord st) = [record (Some true) f ord (registered st)] ∧
            off e f st = st) ∧
  (listeners_of e st = [] →
   (emit code e a st).1 = Normal [] ∧ invoked (emit code e a st).2 = invoked st) ∧
  (∀ x, (emit code e a st).1 = Throw x →
        ∃ lo w, lo ∈ listeners_of e st ∧ completion (code (listener lo) a w) = Throw x).
Proof.
  intros Hwf%reachable_wf.
  assert (Map_get e st = None → listeners_of e st = []) as Hnone.
  { unfold listeners_of. by intros ->. }
  destruct (emit_spec code e a st Hwf) as (Hc & _ & Hi & _).
  split_and!.
  - done.
  - intros Hn f ord. unfold on, once_.
    rewrite !register_listeners_of by done. rewrite !decide_True by done.
    rewrite (Hnone Hn). split_and!; [done..|].
    apply off_no_match. by rewrite (Hnone Hn).
  - intros Hxs. rewrite Hc, Hi, Hxs. simpl. by rewrite app_nil_r.
  - intros x. rewrite Hc.
    destruct (outcome _) as [vs|y] eqn:Ho; simpl; [done|].
    intros [= ->]. apply outcome_Throw in Ho as (r & Hr & Hx).
    apply runs_elem in Hr as (lo & w & ? & ->). eauto.
Qed.

Lemma emit_results st e a :
  reachable code st →
  let xs := listeners_of e st in
  let rs := runs code xs a (world st) in
  invoked (emit code e a st).2
  = invoked st ++ ((λ lo, (listener lo, a)) <$> take (length rs) xs) ∧
  (∀ i r, rs !! i = Some r →
     ∃ lo, xs !! i = Some lo ∧
           r = code (listener lo) a (world_of (take i rs) (world st))) ∧
  (emit code e a st).1 = cmap dense (outcome rs) ∧
  (∀ vs, Forall2 (λ r v, completion r = Normal v) rs vs →
     length rs = length xs ∧ (emit code e a st).1 = Normal (dense vs)).
Proof.
  intros Hwf%reachable_wf xs rs.
  destruct (emit_spec code e a st Hwf) as (Hc & _ & Hi & _).
  split_and!; [done | apply runs_lookup | done |].
  intros vs Hvs%outcome_Normal_iff. fold xs rs in Hc. rewrite Hc, Hvs.
  split; [|done]. by apply runs_Normal_length in Hvs as [? _].
Qed.

(** C9. When a listener throws, [emit] throws the same value and returns no
    array, so the values returned by the listeners before it are not handed
    out; the listeners after it are not invoked; and the store keeps what was
    done before the throw: the event's sequence is the copy without the
    [once] records that [emit] stored before the dispatch, changed only by
    the registry calls of the listeners that ran. *)
Theorem C9_listener_throw_propagates st e a pre lo post vs x :
  reachable code st →
  listeners_of e st = pre ++ lo :: post →
  outcome (runs code pre a (world st)) = Normal vs →
  completion (code (listener lo) a (world_of (runs code pre a (world st)) (world st)))
  = Throw x →
  (emit code e a st).1 = Throw x ∧
  invoked (emit code e a st).2
  = invoked st ++ ((λ lo, (listener lo, a)) <$> pre ++ [lo]) ∧
  listeners_of e (emit code e a st).2
  = seq_calls e (calls_of (runs code (listeners_of e st) a (world st)))
      (registered st) (filter (λ lo, not_once lo) (listeners_of e st)) ∧
  (calls_of (runs code (listeners_of e st) a (world st)) = [] →
   listeners_of e (emit code e a st).2
   = filter (λ lo, not_once lo) (listeners_of e st)).
Proof.
  intros Hwf%reachable_wf Hxs Hpre Hlo.
  destruct (emit_spec code e a st Hwf) as (Hc & _ & Hi & _ & _ & Hl).
  specialize (Hl e). rewrite decide_True in Hl by done.
  assert (runs code (listeners_of e st) a (world st)
          = runs code pre a (world st)
            ++ [code (listener lo) a (world_of (runs code pre a (world st)) (world st))])
    as Hruns.
  { rewrite Hxs, (runs_app _ _ _ _ vs) by done. simpl. by rewrite Hlo. }
  split_and!.
  - rewrite Hc, Hruns. by rewrite (outcome_app_Throw _ vs _ x).
  - rewrite Hi, Hruns, Hxs. rewrite length_app. simpl.
    apply runs_Normal_length in Hpre as [-> _].
    rewrite (cons_middle lo pre post), app_assoc.
    by rewrite take_app_length' by (rewrite length_app; simpl; lia).
  - done.
  - intros Hno. by rewrite Hl, Hno.
Qed.

Lemma absent_seq_call e L (c : @Call K) n xs :
  ¬ registers e L c → absent L xs → absent L (seq_call e c n xs).
Proof.
  unfold absent. intros Hc Hxs.
  destruct c as [ev f o|ev f o|ev f]; simpl in *; case_decide; subst; try done.
  - rewrite insertOrderSorted_list_Permutation. constructor; [naive_solver|done].
  - rewrite insertOrderSorted_list_Permutation. constructor; [naive_solver|done].
  - rewrite Forall_forall in Hxs |- *. intros x Hx. apply Hxs.
    eapply elem_of_sublist; [done|apply remove_first_sublist].
Qed.

Lemma absent_seq_calls e L (cs : list (@Call K)) n xs :
  Forall (λ c, ¬ registers e L c) cs → absent L xs → absent L (seq_calls e cs n xs).
Proof.
  intros Hcs. revert n xs. induction Hcs as [|c cs Hc _ IH]; intros n xs Hxs; simpl; [done|].
  by apply IH, absent_seq_call.
Qed.

Lemma absent_filter L xs : absent L xs → absent L (filter (λ lo, not_once lo) xs).
Proof.
  unfold absent. rewrite !Forall_forall. intros Hxs x Hx. apply Hxs.
  eapply elem_of_sublist; [done|apply sublist_filter].
Qed.

Lemma calls_of_runs_Forall (P : @Call K → Prop) xs a w :
  (∀ f a w, Forall P (calls_made (code f a w))) →
  Forall P (calls_of (runs code xs a w)).
Proof.
  intros HP. unfold calls_of. apply Forall_concat, Forall_fmap, Forall_forall.
  intros r (lo & w' & _ & ->)%runs_elem. apply HP.
Qed.

Lemma absent_exec e L op st :
  (∀ f a w, Forall (λ c, ¬ registers e L c) (calls_made (code f a w))) →
  wf st → ¬ op_registers e L op →
  absent L (listeners_of e st) → absent L (listeners_of e (exec code op st)).
Proof.
  intros Hcalls Hwf Hop Hxs.
  destruct op as [ev f ord|ev f ord|ev f|ev a|w]; simpl in *.
  - destruct (perform_spec (CallOn ev f ord) st Hwf) as (_ & _ & _ & _ & Hl).
    cbn [perform] in Hl. rewrite Hl. by apply (absent_seq_call e L (CallOn ev f ord)).
  - destruct (perform_spec (CallOnce ev f ord) st Hwf) as (_ & _ & _ & _ & Hl).
    cbn [perform] in Hl. rewrite Hl. by apply (absent_seq_call e L (CallOnce ev f ord)).
  - destruct (perform_spec (CallOff ev f) st Hwf) as (_ & _ & _ & _ & Hl).
    cbn [perform] in Hl. rewrite Hl. by apply (absent_seq_call e L (CallOff ev f)).
  - destruct (emit_spec code ev a st Hwf) as (_ & _ & _ & _ & _ & Hl).
    rewrite Hl. apply absent_seq_calls; [by apply calls_of_runs_Forall|].
    case_decide; subst; [by apply absent_filter|done].
  - done.
Qed.

Lemma reachable_execs ops st :
  reachable code st → reachable code (foldl (λ s op, exec code op s) st ops).
Proof.
  revert st. induction ops as [|op ops IH]; intros st Hr; simpl; [done|].
  by apply IH, reachable_exec.
Qed.

Lemma absent_execs e L ops st :
  (∀ f a w, Forall (λ c, ¬ registers e L c) (calls_made (code f a w))) →
  reachable code st → Forall (λ op, ¬ op_registers e L op) ops →
  absent L (listeners_of e st) →
  absent L (listeners_of e (foldl (λ s op, exec code op s) st ops)).
Proof.
  intros Hcalls Hr Hops. revert st Hr.
  induction Hops as [|op ops Hop _ IH]; intros st Hr Hxs; simpl; [done|].
  apply IH; [by apply reachable_exec|].
  apply absent_exec; [done | by apply (reachable_wf code) | done | done].
Qed.

Lemma invocations_of_app (L : fn) (l1 l2 : list (fn * A)) :
  invocations_of L (l1 ++ l2) = invocations_of L l1 + invocations_of L l2.
Proof. unfold invocations_of. by rewrite filter_app, length_app. Qed.

Lemma invocations_of_absent L a xs :
  absent L xs → invocations_of L ((λ lo, (listener lo, a)) <$> xs) = 0.
Proof.
  unfold invocations_of. induction 1 as [|x xs Hx _ IH]; simpl; [done|].
  by rewrite filter_cons_False.
Qed.

Lemma invocations_of_dispatched L a xs n :
  invocations_of L ((λ lo, (listener lo, a)) <$> take n xs) ≤
  invocations_of L ((λ lo, (listener lo, a)) <$> xs).
Proof.
  rewrite <- (take_drop n xs) at 2. rewrite fmap_app, invocations_of_app. lia.
Qed.

(** C3, as the code has it.  Let [L] hold no record of the event and let no
    listener register [L] for the event while it runs.  After
    [once(event, L)], an [emit] that returns invokes [L] exactly once and
    returns [L]'s value at the position of [L]'s record; after it no record
    of the event holds [L], so the next [emit] does not invoke [L], and
    neither does any later one until [L] is registered again. *)
Theorem C3_once_listener_fires_once st e L ord a1 a2 rs1 :
  reachable code st →
  absent L (listeners_of e st) →
  (∀ f a w, Forall (λ c, ¬ registers e L c) (calls_made (code f a w))) →
  let st1 := once_ e L ord st in
  let st2 := (emit code e a1 st1).2 in
  let st3 := (emit code e a2 st2).2 in
  (emit code e a1 st1).1 = Normal rs1 →
  invocations_of L (drop (length (invoked st1)) (invoked st2)) = 1 ∧
  (∃ i r w, listeners_of e st1 !! i = Some (record (Some true) L ord (registered st)) ∧
            completion (code L a1 w) = Normal r ∧
            rs1 !! i = Some (Some r)) ∧
  invocations_of L (drop (length (invoked st2)) (invoked st3)) = 0 ∧
  absent L (listeners_of e st2) ∧
  (∀ ops, Forall (λ op, ¬ op_registers e L op) ops →
          absent L (listeners_of e (foldl (λ s op, exec code op s) st2 ops))).
Proof.
  intros Hr Habs Hcalls st1 st2 st3 Hnormal.
  assert (reachable code st1) as Hr1 by apply (reachable_exec code (OpOnce e L ord) st Hr).
  assert (reachable code st2) as Hr2 by apply (reachable_exec code (OpEmit e a1) st1 Hr1).
  pose proof (reachable_wf code st Hr) as Hwf.
  pose proof (reachable_wf code st1 Hr1) as Hwf1.
  pose proof (reachable_wf code st2 Hr2) as Hwf2.
  destruct (register_inserts (Some true) e L ord st Hwf) as (i & _ & Hxs1).
  fold (once_ e L ord st) in Hxs1. fold st1 in Hxs1.
  destruct (emit_spec code e a1 st1 Hwf1) as (Hc1 & _ & Hi1 & _ & _ & Hl1).
  fold st2 in Hi1, Hl1. rewrite Hnormal in Hc1.
  destruct (outcome (runs code (listeners_of e st1) a1 (world st1))) as [vs|] eqn:Ho;
    [|done].
  simpl in Hc1. injection Hc1 as ->.
  pose proof (runs_Normal_length _ _ _ _ Ho) as [Hlen Hlenvs].
  assert (absent L (listeners_of e st2)) as Habs2.
  { rewrite Hl1, decide_True by done.
    apply absent_seq_calls; [by apply calls_of_runs_Forall|].
    unfold absent. rewrite Hxs1, filter_app, filter_cons_False by (simpl; tauto).
    rewrite <- filter_app, take_drop. by apply absent_filter. }
  split_and!.
  - rewrite Hi1, drop_app_length, Hlen, firstn_all, Hxs1.
    rewrite fmap_app, fmap_cons, invocations_of_app.
    change (invocations_of L ((listener (record (Some true) L ord (registered st)), a1) :: ?l))
      with (invocations_of L ([(L, a1)] ++ l)).
    rewrite invocations_of_app, !invocations_of_absent.
    + unfold invocations_of. by rewrite filter_cons_True.
    + unfold absent in *. rewrite Forall_forall in Habs |- *. intros x Hx. apply Habs.
      eapply elem_of_sublist; [done|apply sublist_drop].
    + unfold absent in *. rewrite Forall_forall in Habs |- *. intros x Hx. apply Habs.
      eapply elem_of_sublist; [done|apply sublist_take].
  - assert (listeners_of e st1 !! length (take i (listeners_of e st))
            = Some (record (Some true) L ord (registered st))) as Hrec.
    { rewrite Hxs1. by rewrite list_lookup_middle. }
    destruct (lookup_lt_is_Some_2 (runs code (listeners_of e st1) a1 (world st1))
                (length (take i (listeners_of e st)))) as [r Hrun].
    { rewrite Hlen. by eapply lookup_lt_Some. }
    apply outcome_Normal_iff in Ho.
    destruct (Forall2_lookup_l _ _ _ _ _ Ho Hrun) as (v & Hv & Hcv).
    apply runs_lookup in Hrun as (lo & Hlo & ->). rewrite Hrec in Hlo.
    injection Hlo as <-. simpl in Hcv.
    eexists _, v, _. split_and!; [done..|].
    unfold dense. by rewrite list_lookup_fmap, Hv.
  - destruct (emit_spec code e a2 st2 Hwf2) as (_ & _ & Hi2 & _).
    fold st3 in Hi2. rewrite Hi2, drop_app_length.
    pose proof (invocations_of_dispatched L a2 (listeners_of e st2)
                  (length (runs code (listeners_of e st2) a2 (world st2)))) as Hle.
    rewrite (invocations_of_absent L a2 _ Habs2) in Hle. lia.
  - done.
  - intros ops Hops. by apply absent_execs.
Qed.

Lemma emit_unfold e a st :
  emit code e a st
  = Array_map (λ lo, invoke code (listener lo) a) (snapshot e st) (prepare e st).
Proof.
  unfold emit, snapshot, prepare.
  by destruct (get_slice_or_empty e st) as [listeners st1].
Qed.

Lemma emit_stored_after e a st :
  wf st →
  listeners_of e (emit code e a st).2
  = seq_calls e (calls_of (runs code (listeners_of e st) a (world st)))
      (registered st) (filter (λ lo, not_once lo) (listeners_of e st)).
Proof.
  intros Hwf. destruct (emit_spec code e a st Hwf) as (_ & _ & _ & _ & _ & Hl).
  rewrite Hl. by rewrite decide_True.
Qed.

Lemma emit_prologue e a st :
  reachable code st →
  emit code e a st
  = Array_map (λ lo, invoke code (listener lo) a) (snapshot e st) (prepare e st) ∧
  read (snapshot e st) (prepare e st) = listeners_of e st ∧
  listeners_of e (prepare e st) = filter (λ lo, not_once lo) (listeners_of e st) ∧
  invoked (prepare e st) = invoked st ∧
  listeners_of e (emit code e a st).2
  = seq_calls e (calls_of (runs code (listeners_of e st) a (world st)))
      (registered st) (filter (λ lo, not_once lo) (listeners_of e st)).
Proof.
  intros Hwf%reachable_wf. split_and!.
  - apply emit_unfold.
  - destruct (snapshot_prepare e st Hwf) as [_ Hs]. unfold read. by rewrite Hs.
  - rewrite prepare_listeners_of by done. by rewrite decide_True.
  - apply prepare_fields.
  - by apply emit_stored_after.
Qed.

Lemma registered_twice flag e f o1 o2 st :
  reachable code st →
  listeners_of e (register flag e f o2 (register flag e f o1 st))
  ≡ₚ record flag f o2 (S (registered st))
     :: record flag f o1 (registered st) :: listeners_of e st.
Proof.
  intros Hwf%reachable_wf.
  rewrite !register_listeners_of by auto using register_wf.
  rewrite !decide_True by done.
  destruct (register_fields flag e f o1 st) as (_ & -> & _).
  by rewrite !insertOrderSorted_list_Permutation.
Qed.

Lemma emit_one_result_per_record e a st rs :
  reachable code st →
  (emit code e a st).1 = Normal rs →
  length rs = length (listeners_of e st) ∧
  invoked (emit code e a st).2
  = invoked st ++ ((λ lo, (listener lo, a)) <$> listeners_of e st).
Proof.
  intros Hwf%reachable_wf Hn.
  destruct (emit_spec code e a st Hwf) as (Hc & _ & Hi & _).
  rewrite Hn in Hc.
  destruct (outcome (runs code (listeners_of e st) a (world st))) as [vs|] eqn:Ho; [|done].
  simpl in Hc. injection Hc as ->.
  apply runs_Normal_length in Ho as [Hlen Hlenvs].
  rewrite Hi, Hlen, firstn_all. unfold dense. by rewrite length_fmap.
Qed.

End Claims.

(** * Two families of listener bodies *)

Section Independence.

Context {K : Type} `{Countable K}.
Context {A R X W : Type}.
Variables code code' : fn → A → W → @Run K R X W.

(** The two bodies complete alike and leave the same outside state; they may
    differ in the registry calls they make. *)
Hypothesis same_results : ∀ f a w,
  completion (code f a w) = completion (code' f a w) ∧
  world_after (code f a w) = world_after (code' f a w).

Lemma runs_agree xs (a : A) (w : W) :
  outcome (runs code xs a w) = outcome (runs code' xs a w) ∧
  length (runs code xs a w) = length (runs code' xs a w).
Proof.
  revert w. induction xs as [|lo xs IH]; intros w; simpl; [done|].
  destruct (same_results (listener lo) a w) as [<- <-].
  destruct (completion (code (listener lo) a w)); [|done].
  destruct (IH (world_after (code (listener lo) a w))) as [-> ->]. done.
Qed.

Lemma emit_agree (e : K) (a : A) (st : @State K _ _ A W) :
  wf st →
  (emit code e a st).1 = (emit code' e a st).1 ∧
  invoked (emit code e a st).2 = invoked (emit code' e a st).2.
Proof.
  intros Hwf.
  destruct (emit_spec code e a st Hwf) as (-> & _ & -> & _).
  destruct (emit_spec code' e a st Hwf) as (-> & _ & -> & _).
  by destruct (runs_agree (listeners_of e st) a (world st)) as [-> ->].
Qed.

End Independence.

(** * The scenarios *)

Lemma after_reachable ops : reachable scenario_code (after ops).
Proof. apply reachable_execs, reachable_new. Qed.

Lemma scenario_code_registers_only_resubscriber (e : string) (L : fn) :
  L ≠ resubscriber →
  ∀ f a w, Forall (λ c, ¬ registers e L c) (calls_made (scenario_code f a w)).
Proof.
  intros HL f a w.
  do 6 (destruct f as [|f];
        [repeat constructor; unfold registers, resubscriber in *; intuition congruence|]).
  constructor.
Qed.

(** C2. [emit] invokes the listeners of the event's sequence from left to
    right with the arguments it was given, each in the outside state its
    predecessor left, up to the first one that throws; when none throws all
    of them are invoked and the array returned holds their values position
    by position.  With [on("x", f => f+1, 0)] and then
    [on("x", f => f*2, -1)] on a new registry, [emit("x", 5)] returns
    [[10, 6]]. *)
Theorem C2_emit_dispatches_in_order :
  (∀ (K : Type) (EqK : EqDecision K) (CK : Countable K) (A R X W : Type)
     (code : fn → A → W → @Run K R X W) (st : @State K EqK CK A W) (e : K) (a : A),
     reachable code st →
     let xs := listeners_of e st in
     let rs := runs code xs a (world st) in
     invoked (emit code e a st).2
     = invoked st ++ ((λ lo, (listener lo, a)) <$> take (length rs) xs) ∧
     (∀ i r, rs !! i = Some r →
        ∃ lo, xs !! i = Some lo ∧
              r = code (listener lo) a (world_of (take i rs) (world st))) ∧
     (emit code e a st).1 = cmap dense (outcome rs) ∧
     (∀ vs, Forall2 (λ r v, completion r = Normal v) rs vs →
        length rs = length xs ∧ (emit code e a st).1 = Normal (dense vs))) ∧
  (emit scenario_code "x" 5%Z
     (after [OpOn "x" plus_one 0; OpOn "x" times_two (-1)])).1
  = Normal (dense [10; 6]%Z).
Proof.
  split; [|by vm_compute].
  intros. by apply emit_results.
Qed.

(** C6. Which listeners an [emit] invokes, in which order, and what it
    returns or throws do not depend on the registry calls the listeners make
    while they run: two families of listener bodies that complete alike and
    differ only in these calls give the same invocations and the same
    result.  The calls act on the sequence stored for the event, which the
    next [emit] reads.  With [unsubscriber] and [times_two] registered for
    ["x"], the first [emit("x", 5)] still returns [[5, 10]] and the second
    returns [[5]]. *)
Theorem C6_dispatch_ignores_reentrant_calls :
  (∀ (K : Type) (EqK : EqDecision K) (CK : Countable K) (A R X W : Type)
     (code code' : fn → A → W → @Run K R X W) (st : @State K EqK CK A W)
     (e : K) (a : A),
     reachable code st →
     (∀ f a w, completion (code f a w) = completion (code' f a w) ∧
               world_after (code f a w) = world_after (code' f a w)) →
     (emit code e a st).1 = (emit code' e a st).1 ∧
     invoked (emit code e a st).2 = invoked (emit code' e a st).2) ∧
  (∀ (K : Type) (EqK : EqDecision K) (CK : Countable K) (A R X W : Type)
     (code : fn → A → W → @Run K R X W) (st : @State K EqK CK A W) (e : K) (a : A),
     reachable code st →
     listeners_of e (emit code e a st).2
     = seq_calls e (calls_of (runs code (listeners_of e st) a (world st)))
         (registered st) (filter (λ lo, not_once lo) (listeners_of e st))) ∧
  (let st := after [OpOn "x" unsubscriber 0; OpOn "x" times_two 0] in
   (emit scenario_code "x" 5%Z st).1 = Normal (dense [5; 10]%Z) ∧
   (emit scenario_code "x" 5%Z (emit scenario_code "x" 5%Z st).2).1
   = Normal (dense [5]%Z)).
Proof.
  split_and!; [| |by vm_compute].
  - intros * Hr Hsame. apply emit_agree; [done|]. by apply (reachable_wf code).
  - intros * Hr. by apply emit_stored_after, (reachable_wf code).
Qed.

Lemma filter_not_once_marked (xs : list ListenerObject) :
  filter (λ lo, not_once lo) xs = filter (λ lo, once lo ≠ Some true) xs.
Proof.
  apply list_filter_iff. intros lo. unfold not_once, truthy.
  destruct (once lo) as [[|]|]; simpl; split;
    first [done | intros Hne; by destruct Hne].
Qed.

(** C7. [emit] stores the copy without the [once] records before it invokes
    anything: the map over the private copy starts in a store whose sequence
    for the event holds, in their order, exactly the records of the old
    sequence whose [once] is not [true], with no invocation logged yet.  What
    the event's sequence is after the [emit] is this sequence changed by the
    registry calls of the listeners that ran.  So a [once] listener that
    registers itself again while it runs is in the sequence afterwards, once:
    with [resubscriber] registered by [once("y", ...)], each of two
    [emit("y", 5)] invokes it once, and after each the sequence holds exactly
    the record it made in that run; and with [plus_one] registered by [on]
    before it, the record of [plus_one] stays through both. *)
Theorem C7_once_records_removed_before_dispatch :
  (∀ (K : Type) (EqK : EqDecision K) (CK : Countable K) (A R X W : Type)
     (code : fn → A → W → @Run K R X W) (st : @State K EqK CK A W) (e : K) (a : A),
     reachable code st →
     emit code e a st
     = Array_map (λ lo, invoke code (listener lo) a) (snapshot e st) (prepare e st) ∧
     read (snapshot e st) (prepare e st) = listeners_of e st ∧
     listeners_of e (prepare e st)
     = filter (λ lo, once lo ≠ Some true) (listeners_of e st) ∧
     invoked (prepare e st) = invoked st ∧
     listeners_of e (emit code e a st).2
     = seq_calls e (calls_of (runs code (listeners_of e st) a (world st)))
         (registered st) (filter (λ lo, once lo ≠ Some true) (listeners_of e st))) ∧
  (let st := after [OpOnce "y" resubscriber 0] in
   let st1 := (emit scenario_code "y" 5%Z st).2 in
   let st2 := (emit scenario_code "y" 5%Z st1).2 in
   listeners_of "y" st = [record (Some true) resubscriber 0 0] ∧
   (emit scenario_code "y" 5%Z st).1 = Normal (dense [5]%Z) ∧
   listeners_of "y" st1 = [record (Some true) resubscriber 0 1] ∧
   (emit scenario_code "y" 5%Z st1).1 = Normal (dense [5]%Z) ∧
   listeners_of "y" st2 = [record (Some true) resubscriber 0 2] ∧
   invoked st2 = [(resubscriber, 5%Z); (resubscriber, 5%Z)]) ∧
  (let st := after [OpOn "y" plus_one 0; OpOnce "y" resubscriber 0] in
   let st1 := (emit scenario_code "y" 5%Z st).2 in
   let st2 := (emit scenario_code "y" 5%Z st1).2 in
   listeners_of "y" st
   = [record None plus_one 0 0; record (Some true) resubscriber 0 1] ∧
   listeners_of "y" (prepare "y" st) = [record None plus_one 0 0] ∧
   invoked (prepare "y" st) = [] ∧
   (emit scenario_code "y" 5%Z st).1 = Normal (dense [6; 5]%Z) ∧
   listeners_of "y" st1
   = [record None plus_one 0 0; record (Some true) resubscriber 0 2] ∧
   (emit scenario_code "y" 5%Z st1).1 = Normal (dense [6; 5]%Z) ∧
   listeners_of "y" st2
   = [record None plus_one 0 0; record (Some true) resubscriber 0 3] ∧
   invoked st2
   = [(plus_one, 5%Z); (resubscriber, 5%Z); (plus_one, 5%Z); (resubscriber, 5%Z)]).
Proof.
  split_and!; [|by vm_compute..].
  intros * Hr. rewrite <- filter_not_once_marked. by apply emit_prologue.
Qed.

(** C10. Registering a callback a second time for the same event adds a
    second record and keeps the first; an [emit] that returns has invoked the
    callback of every record of the sequence, in order, and returns one value
    for each record.  With [plus_one] registered twice for ["x"],
    [emit("x", 5)] invokes it twice and returns [[6, 6]]. *)
Theorem C10_one_record_per_registration :
  (∀ (K : Type) (EqK : EqDecision K) (CK : Countable K) (A R X W : Type)
     (code : fn → A → W → @Run K R X W) (st : @State K EqK CK A W) (e : K) (f : fn)
     (o1 o2 : Z),
     reachable code st →
     listeners_of e (on e f o2 (on e f o1 st))
     ≡ₚ record None f o2 (S (registered st))
        :: record None f o1 (registered st) :: listeners_of e st ∧
     listeners_of e (once_ e f o2 (once_ e f o1 st))
     ≡ₚ record (Some true) f o2 (S (registered st))
        :: record (Some true) f o1 (registered st) :: listeners_of e st) ∧
  (∀ (K : Type) (EqK : EqDecision K) (CK : Countable K) (A R X W : Type)
     (code : fn → A → W → @Run K R X W) (st : @State K EqK CK A W) (e : K) (a : A)
     (rs : list (option R)),
     reachable code st →
     (emit code e a st).1 = Normal rs →
     length rs = length (listeners_of e st) ∧
     invoked (emit code e a st).2
     = invoked st ++ ((λ lo, (listener lo, a)) <$> listeners_of e st)) ∧
  (let st := after [OpOn "x" plus_one 0; OpOn "x" plus_one 0] in
   listeners_of "x" st = [record None plus_one 0 0; record None plus_one 0 1] ∧
   (emit scenario_code "x" 5%Z st).1 = Normal (dense [6; 6]%Z) ∧
   invoked (emit scenario_code "x" 5%Z st).2 = [(plus_one, 5%Z); (plus_one, 5%Z)]).
Proof.
  split_and!; [| |by vm_compute].
  - intros * Hr. split; by apply (registered_twice code).
  - intros * Hr Hn. by apply emit_one_result_per_record.
Qed.

Lemma C1_sequences_stay_ordered_witness :
  let st := after [OpOn "x" plus_one 0; OpOn "x" times_two (-1)] in
  reachable scenario_code st ∧
  listeners_of "x" st = [record None times_two (-1) 1; record None plus_one 0 0] ∧
  (∀ x, x ∈ listeners_of "x" st → stamp x < registered st) ∧
  (∃ i, first_greater 0 (listeners_of "x" st) i ∧
        listeners_of "x" (on "x" thrower 0 st)
        = take i (listeners_of "x" st)
          ++ record None thrower 0 (registered st) :: drop i (listeners_of "x" st)).
Proof.
  intros st.
  pose proof (C1_sequences_stay_ordered scenario_code st "x" (after_reachable _))
    as (_ & Hstamp & Hon & _).
  split_and!; [apply after_reachable | by vm_compute | exact Hstamp |].
  apply (Hon thrower 0%Z).
Defined.

Lemma C2_emit_dispatches_in_order_witness :
  let st := after [OpOn "x" plus_one 0; OpOn "x" times_two (-1)] in
  reachable scenario_code st ∧
  invoked (emit scenario_code "x" 7%Z st).2
  = invoked st
    ++ ((λ lo, (listener lo, 7%Z))
          <$> take (length (runs scenario_code (listeners_of "x" st) 7%Z (world st)))
                (listeners_of "x" st)).
Proof.
  intros st. split; [apply after_reachable|].
  apply (proj1 C2_emit_dispatches_in_order string _ _ Z Z string unit
           scenario_code st "x" 7%Z (after_reachable _)).
Defined.

Lemma C3_once_listener_fires_once_witness :
  let st := after [OpOn "y" times_two (-1); OpOn "y" unsubscriber 5] in
  let st1 := once_ "y" plus_one 0 st in
  let st2 := (emit scenario_code "y" 5%Z st1).2 in
  let st3 := (emit scenario_code "y" 5%Z st2).2 in
  reachable scenario_code st ∧
  absent plus_one (listeners_of "y" st) ∧
  (∀ f a w, Forall (λ c, ¬ registers "y" plus_one c) (calls_made (scenario_code f a w))) ∧
  (emit scenario_code "y" 5%Z st1).1 = Normal (dense [10; 6; 5]%Z) ∧
  invocations_of plus_one (drop (length (invoked st1)) (invoked st2)) = 1 ∧
  invocations_of plus_one (drop (length (invoked st2)) (invoked st3)) = 0 ∧
  absent plus_one (listeners_of "y" st2).
Proof.
  intros st st1 st2 st3.
  assert (absent plus_one (listeners_of "y" st)) as Habs
    by (vm_compute; repeat constructor; discriminate).
  assert (∀ f a w, Forall (λ c, ¬ registers "y" plus_one c)
                     (calls_made (scenario_code f a w))) as Hcalls
    by (apply scenario_code_registers_only_resubscriber; discriminate).
  assert ((emit scenario_code "y" 5%Z st1).1 = Normal (dense [10; 6; 5]%Z)) as Hn
    by (by vm_compute).
  pose proof (C3_once_listener_fires_once scenario_code st "y" plus_one 0%Z 5%Z 5%Z _
                (after_reachable _) Habs Hcalls Hn) as (H1 & _ & H3 & H4 & _).
  split_and!; [apply after_reachable | done..].
Defined.

(** C3 as stated fails on the code in three ways.  A callback that is also
    registered by [on] is invoked twice by the first [emit] and again by the
    second, whose result holds its value.  When a listener that stands
    earlier in the sequence throws, the [once] record is gone although its
    callback was never invoked.  And a callback that registers itself again
    while it runs is invoked by the second [emit] as well. *)
Lemma C3_counterexample :
  (let st1 := after [OpOn "y" plus_one 0; OpOnce "y" plus_one 0] in
   let st2 := (emit scenario_code "y" 5%Z st1).2 in
   let st3 := (emit scenario_code "y" 5%Z st2).2 in
   invocations_of plus_one (drop (length (invoked st1)) (invoked st2)) = 2 ∧
   invocations_of plus_one (drop (length (invoked st2)) (invoked st3)) = 1 ∧
   (emit scenario_code "y" 5%Z st2).1 = Normal (dense [6]%Z)) ∧
  (let st1 := after [OpOn "y" thrower (-1); OpOnce "y" plus_one 0] in
   let st2 := (emit scenario_code "y" 5%Z st1).2 in
   let st3 := (emit scenario_code "y" 5%Z st2).2 in
   (emit scenario_code "y" 5%Z st1).1 = Throw "boom" ∧
   invocations_of plus_one (drop (length (invoked st1)) (invoked st3)) = 0 ∧
   listeners_of "y" st2 = [record None thrower (-1) 0]) ∧
  (let st1 := after [OpOnce "y" resubscriber 0] in
   let st2 := (emit scenario_code "y" 5%Z st1).2 in
   let st3 := (emit scenario_code "y" 5%Z st2).2 in
   invocations_of resubscriber (drop (length (invoked st1)) (invoked st2)) = 1 ∧
   invocations_of resubscriber (drop (length (invoked st2)) (invoked st3)) = 1 ∧
   (emit scenario_code "y" 5%Z st2).1 = Normal (dense [5]%Z)).
Proof. by vm_compute. Qed.

Lemma C4_off_removes_first_match_witness :
  let st := after [OpOn "x" plus_one 0; OpOn "x" times_two 0; OpOn "x" plus_one 0] in
  let r1 := record None plus_one 0 0 in
  let r2 := record None times_two 0 1 in
  let r3 := record None plus_one 0 2 in
  listeners_of "x" st = [] ++ r1 :: [r2; r3] ∧
  listeners_of "x" (off "x" plus_one st) = [] ++ [r2; r3] ∧
  Forall (λ x, listener x ≠ thrower) (listeners_of "x" st) ∧
  off "x" thrower st = st.
Proof.
  intros st r1 r2 r3.
  assert (listeners_of "x" st = [] ++ r1 :: [r2; r3]) as Hxs by (by vm_compute).
  assert (Forall (λ x, listener x ≠ thrower) (listeners_of "x" st)) as Hno
    by (rewrite Hxs; repeat constructor; discriminate).
  split_and!; [done | | done |].
  - apply (proj1 (C4_off_removes_first_match st "x" plus_one) [] r1 [r2; r3] Hxs);
      [reflexivity | constructor].
  - apply (proj1 (proj2 (C4_off_removes_first_match st "x" thrower)) Hno).
Defined.



Lemma C6_dispatch_ignores_reentrant_calls_witness :
  let st := after [OpOn "x" unsubscriber 0; OpOn "x" times_two 0] in
  reachable scenario_code st ∧
  (∀ f a w, completion (scenario_code f a w) = completion (quiet scenario_code f a w) ∧
            world_after (scenario_code f a w) = world_after (quiet scenario_code f a w)) ∧
  (emit scenario_code "x" 5%Z st).1 = (emit (quiet scenario_code) "x" 5%Z st).1 ∧
  invoked (emit scenario_code "x" 5%Z st).2
  = invoked (emit (quiet scenario_code) "x" 5%Z st).2.
Proof.
  intros st.
  assert (∀ f a w,
            completion (scenario_code f a w) = completion (quiet scenario_code f a w) ∧
            world_after (scenario_code f a w) = world_after (quiet scenario_code f a w))
    as Hsame by done.
  split_and!; [apply after_reachable | done | |];
    apply (proj1 C6_dispatch_ignores_reentrant_calls string _ _ Z Z string unit
             scenario_code (quiet scenario_code) st "x" 5%Z (after_reachable _) Hsame).
Defined.

Lemma C7_once_records_removed_before_dispatch_witness :
  let st := after [OpOn "y" plus_one 0; OpOnce "y" resubscriber 0;
                   OpOn "y" times_two 3; OpOnce "y" thrower 7] in
  reachable scenario_code st ∧
  listeners_of "y" st
  = [record None plus_one 0 0; record (Some true) resubscriber 0 1;
     record None times_two 3 2; record (Some true) thrower 7 3] ∧
  listeners_of "y" (prepare "y" st)
  = [record None plus_one 0 0; record None times_two 3 2] ∧
  invoked (prepare "y" st) = invoked st ∧
  listeners_of "y" (emit scenario_code "y" 5%Z st).2
  = [record None plus_one 0 0; record (Some true) resubscriber 0 4;
     record None times_two 3 2].
Proof.
  intros st.
  pose proof (proj1 C7_once_records_removed_before_dispatch string _ _ Z Z string unit
                scenario_code st "y" 5%Z (after_reachable _)) as (_ & _ & Hf & Hi & Hl).
  split_and!; [apply after_reachable | by vm_compute | | exact Hi | by vm_compute].
  rewrite Hf. by vm_compute.
Defined.

Lemma C8_methods_are_total_witness :
  let st := after [OpOn "x" thrower 0] in
  reachable scenario_code st ∧
  Map_get "y" st = None ∧
  listeners_of "y" st = [] ∧
  (emit scenario_code "y" 5%Z st).1 = Normal [] ∧
  invoked (emit scenario_code "y" 5%Z st).2 = invoked st ∧
  (emit scenario_code "x" 5%Z st).1 = Throw "boom" ∧
  (∃ lo w, lo ∈ listeners_of "x" st ∧
           completion (scenario_code (listener lo) 5%Z w) = Throw "boom").
Proof.
  intros st.
  assert (Map_get "y" st = None) as Hnone by (by vm_compute).
  assert ((emit scenario_code "x" 5%Z st).1 = Throw "boom") as Hthrow by (by vm_compute).
  pose proof (C8_methods_are_total scenario_code st "y" 5%Z (after_reachable _))
    as (Hxs & _ & Hemit & _).
  pose proof (C8_methods_are_total scenario_code st "x" 5%Z (after_reachable _))
    as (_ & _ & _ & Hfrom).
  split_and!; [apply after_reachable | done | by apply Hxs | by apply Hemit, Hxs
              | by apply Hemit, Hxs | done | by apply Hfrom].
Defined.

Lemma C9_listener_throw_propagates_witness :
  let st := after [OpOnce "x" plus_one 0; OpOn "x" thrower 1; OpOn "x" times_two 2] in
  let r1 := record (Some true) plus_one 0 0 in
  let r2 := record None thrower 1 1 in
  let r3 := record None times_two 2 2 in
  reachable scenario_code st ∧
  listeners_of "x" st = [r1] ++ r2 :: [r3] ∧
  outcome (runs scenario_code [r1] 5%Z (world st)) = Normal [6%Z] ∧
  (emit scenario_code "x" 5%Z st).1 = Throw "boom" ∧
  invoked (emit scenario_code "x" 5%Z st).2
  = invoked st ++ [(plus_one, 5%Z); (thrower, 5%Z)] ∧
  listeners_of "x" (emit scenario_code "x" 5%Z st).2 = [r2; r3].
Proof.
  intros st r1 r2 r3.
  assert (listeners_of "x" st = [r1] ++ r2 :: [r3]) as Hxs by (by vm_compute).
  assert (outcome (runs scenario_code [r1] 5%Z (world st)) = Normal [6%Z]) as Hpre
    by (by vm_compute).
  assert (completion (scenario_code (listener r2) 5%Z
            (world_of (runs scenario_code [r1] 5%Z (world st)) (world st)))
          = Throw "boom") as Hlo by (by vm_compute).
  pose proof (C9_listener_throw_propagates scenario_code st "x" 5%Z [r1] r2 [r3]
                [6%Z] "boom" (after_reachable _) Hxs Hpre Hlo) as (Hc & Hi & _ & Hl).
  split_and!; [apply after_reachable | done | done | done | exact Hi |].
  rewrite Hl; by vm_compute.
Defined.

Lemma C10_one_record_per_registration_witness :
  let st := after [OpOn "x" times_two 0] in
  reachable scenario_code st ∧
  listeners_of "x" (on "x" plus_one 3 (on "x" plus_one (-3) st))
  ≡ₚ record None plus_one 3 (S (registered st))
     :: record None plus_one (-3) (registered st) :: listeners_of "x" st ∧
  (emit scenario_code "x" 5%Z st).1 = Normal (dense [10]%Z) ∧
  length (dense [10]%Z) = length (listeners_of "x" st).
Proof.
  intros st.
  assert ((emit scenario_code "x" 5%Z st).1 = Normal (dense [10]%Z)) as Hn
    by (by vm_compute).
  split_and!; [apply after_reachable | | done |].
  - apply (proj1 C10_one_record_per_registration string _ _ Z Z string unit
             scenario_code st "x" plus_one (-3)%Z 3%Z (after_reachable _)).
  - apply (proj1 (proj2 C10_one_record_per_registration) string _ _ Z Z string unit
             scenario_code st "x" 5%Z _ (after_reachable _) Hn).
Defined.

(** * Further properties of the methods *)

Section Extras.

Context {K : Type} `{Countable K}.
Context {A R X W : Type}.
Variable code : fn → A → W → @Run K R X W.

Implicit Types (st : @State K _ _ A W) (e : K) (f : fn) (a : A).
Implicit Types (xs : list ListenerObject).

Lemma register_held flag e f ord st : held st → held (register flag e f ord st).
Proof.
  intros Hh. unfold held, register, get_or_empty_slice, Map_get.
  destruct (_listeners st !! e) as [l|] eqn:He; simpl;
    intros e' l'; rewrite lookup_insert; (case_decide;
      [ intros [= <-]; by rewrite lookup_insert_eq
      | intros Hl%Hh; rewrite !lookup_insert; by repeat case_decide ]).
Qed.

Lemma off_held e f st : held st → held (off e f st).
Proof.
  intros Hh. unfold held, off, Map_get.
  destruct (_listeners st !! e) as [l|] eqn:He; [|done].
  case_decide; [|done]. simpl. intros e' l' Hl%Hh.
  rewrite lookup_insert. by case_decide.
Qed.

Lemma performs_held (cs : list (@Call K)) st :
  held st → held (foldl (λ s c, perform c s) st cs).
Proof.
  revert st. induction cs as [|c cs IH]; intros st Hh; simpl; [done|].
  apply IH. destruct c; simpl; unfold on, once_;
    auto using register_held, off_held.
Qed.

Lemma dispatch_held xs a st : held st → held (dispatch code xs a st).2.
Proof.
  revert st. induction xs as [|lo xs IH]; intros st Hh; [done|].
  cbn [dispatch].
  assert (held (invoke code (listener lo) a st).2) as Hh'
    by (unfold invoke; cbn [snd]; by apply performs_held).
  destruct (invoke code (listener lo) a st) as [[r|x] st1]; [|done].
  cbn [snd] in Hh'. specialize (IH st1 Hh').
  by destruct (dispatch code xs a st1).
Qed.

Lemma prepare_held e st : held st → held (prepare e st).
Proof.
  intros Hh. unfold held, prepare, get_slice_or_empty, Map_get.
  destruct (_listeners st !! e) as [l|] eqn:He; simpl;
    intros e' l'; rewrite lookup_insert; (case_decide;
      [ intros [= <-]; by rewrite lookup_insert_eq
      | intros Hl%Hh; rewrite !lookup_insert; by repeat case_decide ]).
Qed.

Lemma reachable_held st : reachable code st → held st.
Proof.
  induction 1 as [w|op st Hr Hh].
  - intros e l. simpl. by rewrite lookup_empty.
  - destruct op as [ev f ord|ev f ord|ev f|ev a|w]; simpl.
    + by apply register_held.
    + by apply register_held.
    + by apply off_held.
    + rewrite emit_dispatch by by apply (reachable_wf code).
      by apply dispatch_held, prepare_held.
    + done.
Qed.

(** X1. In every store a registry reaches, each reference the map holds is
    the reference of an allocated array, and no array is held under two
    event keys. *)
Theorem X1_stored_arrays_are_not_shared st :
  reachable code st →
  (∀ e l, Map_get e st = Some l → l < next st ∧ is_Some (arrays st !! l)) ∧
  (∀ e e' l, Map_get e st = Some l → Map_get e' st = Some l → e = e').
Proof.
  intros Hr. destruct (reachable_wf code st Hr) as [Hlt Hinj].
  pose proof (reachable_held st Hr) as Hh.
  split; [|exact Hinj].
  intros e l Hl. split; [by eapply Hlt | by eapply Hh].
Qed.

Lemma preserves_dispatch xs a st : preserves st (dispatch code xs a st).2.
Proof.
  revert st. induction xs as [|lo xs IH]; intros st; [apply preserves_refl|].
  cbn [dispatch].
  pose proof (preserves_invoke code (listener lo) a st) as Hp.
  destruct (invoke code (listener lo) a st) as [[r|x] st1]; [|done].
  cbn [snd] in Hp. specialize (IH st1).
  destruct (dispatch code xs a st1) as [c st2]. cbn [snd] in *.
  by eapply preserves_trans.
Qed.

(** X2. The array [emit] maps over stays out of the listeners' reach: when
    [emit] has run, with whatever registry calls the listeners made, that
    array still has the contents the event's sequence had when [emit] was
    called and the map does not hold it; and an [emit] that returns returns
    an array without holes. *)
Theorem X2_emit_copy_is_never_written st e a :
  reachable code st →
  arrays (emit code e a st).2 !! snapshot e st = Some (listeners_of e st) ∧
  (∀ e', Map_get e' (emit code e a st).2 ≠ Some (snapshot e st)) ∧
  (∀ rs, (emit code e a st).1 = Normal rs → Forall is_Some rs).
Proof.
  intros Hwf%reachable_wf.
  destruct (snapshot_prepare e st Hwf) as [Hp Hs].
  rewrite emit_dispatch by done. cbn [fst snd].
  destruct (preserves_dispatch (listeners_of e st) a (prepare e st)) as [_ Hpres].
  destruct (Hpres _ Hp) as [[_ Hno] Heq].
  split_and!.
  - by rewrite Heq.
  - apply Hno.
  - intros rs. destruct (dispatch code _ a _).1 as [vs|x]; simpl; [|done].
    intros [= <-]. unfold dense. apply Forall_fmap, Forall_true. by eexists.
Qed.

Lemma remove_first_insert flag f ord n xs :
  absent f xs →
  remove_first f (insertOrderSorted_list xs (record flag f ord n)) = xs.
Proof.
  intros Habs. unfold insertOrderSorted_list.
  rewrite remove_first_middle; [apply take_drop | done |].
  unfold absent in Habs. rewrite Forall_forall in Habs |- *.
  intros x Hx. apply Habs. eapply elem_of_sublist; [done|apply sublist_take].
Qed.

Lemma off_register flag e f ord st e' :
  wf st → absent f (listeners_of e st) →
  listeners_of e' (off e f (register flag e f ord st)) = listeners_of e' st.
Proof.
  intros Hwf Habs.
  rewrite off_listeners_of by by apply register_wf.
  rewrite !register_listeners_of by done.
  destruct (decide (e' = e)) as [->|Hne].
  - rewrite decide_True by done. by apply remove_first_insert.
  - done.
Qed.

(** X3. Registering a callback that the event's sequence does not hold and
    then calling [off] with it gives back the sequences as they were, for
    this event and for every other one; this holds for [on] and for
    [once]. *)
Theorem X3_off_undoes_registration st e f ord :
  reachable code st →
  absent f (listeners_of e st) →
  (∀ e', listeners_of e' (off e f (on e f ord st)) = listeners_of e' st) ∧
  (∀ e', listeners_of e' (off e f (once_ e f ord st)) = listeners_of e' st).
Proof.
  intros Hwf%reachable_wf Habs.
  split; intros e'; by apply off_register.
Qed.

Lemma performs_keys (cs : list (@Call K)) st e :
  is_Some (_listeners st !! e) →
  is_Some (_listeners (foldl (λ s c, perform c s) st cs) !! e).
Proof.
  revert st. induction cs as [|c cs IH]; intros st Hk; simpl; [done|].
  apply IH. destruct c as [ev f ord|ev f ord|ev f]; simpl.
  - unfold on, register, get_or_empty_slice, Map_get.
    destruct (_listeners st !! ev); simpl; rewrite lookup_insert; by case_decide.
  - unfold once_, register, get_or_empty_slice, Map_get.
    destruct (_listeners st !! ev); simpl; rewrite lookup_insert; by case_decide.
  - by destruct (off_fields ev f st) as (_ & _ & _ & _ & ->).
Qed.

Lemma dispatch_keys xs a st e :
  is_Some (_listeners st !! e) →
  is_Some (_listeners (dispatch code xs a st).2 !! e).
Proof.
  revert st. induction xs as [|lo xs IH]; intros st Hk; [done|].
  cbn [dispatch].
  assert (is_Some (_listeners (invoke code (listener lo) a st).2 !! e)) as Hk'
    by (unfold invoke; cbn [snd]; by apply performs_keys).
  destruct (invoke code (listener lo) a st) as [[r|x] st1]; [|done].
  cbn [snd] in Hk'. specialize (IH st1 Hk').
  by destruct (dispatch code xs a st1).
Qed.

Lemma prepare_keys e st e' :
  e' = e ∨ is_Some (_listeners st !! e') →
  is_Some (_listeners (prepare e st) !! e').
Proof.
  intros Hk. unfold prepare, get_slice_or_empty, Map_get.
  destruct (_listeners st !! e); simpl; rewrite lookup_insert;
    (case_decide as Hd; [done | by destruct Hk as [->|?]]).
Qed.

(** X4. The registry never forgets an event key: a key the map holds is
    still held after any operation.  [on], [once] and [emit] leave the key of
    their event in the map, also an [emit] on an event that has no listener
    and never had one; [off] leaves the map as it is. *)
Theorem X4_keys_are_never_removed st e :
  reachable code st →
  (∀ op, is_Some (Map_get e st) → is_Some (Map_get e (exec code op st))) ∧
  (∀ f ord, is_Some (Map_get e (on e f ord st)) ∧
            is_Some (Map_get e (once_ e f ord st))) ∧
  (∀ a, is_Some (Map_get e (emit code e a st).2)) ∧
  (∀ f e', Map_get e' (off e f st) = Map_get e' st).
Proof.
  intros Hwf%reachable_wf.
  assert (∀ ev a, ev = e ∨ is_Some (_listeners st !! e) →
                  is_Some (_listeners (emit code ev a st).2 !! e)) as Hemit.
  { intros ev a Hk. rewrite emit_dispatch by done.
    apply dispatch_keys, prepare_keys. destruct Hk as [->|?]; [by left | by right]. }
  split_and!.
  - intros op Hk. unfold Map_get in *.
    destruct op as [ev f ord|ev f ord|ev f|ev a|w]; simpl.
    + apply (performs_keys [CallOn ev f ord] st e Hk).
    + apply (performs_keys [CallOnce ev f ord] st e Hk).
    + apply (performs_keys [CallOff ev f] st e Hk).
    + apply Hemit. by right.
    + done.
  - intros f ord. unfold Map_get, on, once_, register, get_or_empty_slice, Map_get.
    destruct (_listeners st !! e); simpl; by rewrite lookup_insert_eq.
  - intros a. apply Hemit. by left.
  - intros f e'. unfold Map_get.
    by destruct (off_fields e f st) as (_ & _ & _ & _ & ->).
Qed.

Lemma seq_call_once_new e (c : @Call K) n0 n xs :
  n0 ≤ n →
  Forall (λ lo, truthy (once lo) = true → n0 ≤ stamp lo) xs →
  Forall (λ lo, truthy (once lo) = true → n0 ≤ stamp lo) (seq_call e c n xs).
Proof.
  intros Hn Hxs.
  destruct c as [ev f o|ev f o|ev f]; simpl; case_decide; try done.
  - rewrite insertOrderSorted_list_Permutation. by constructor.
  - rewrite insertOrderSorted_list_Permutation. by constructor.
  - rewrite Forall_forall in Hxs |- *. intros x Hx. apply Hxs.
    eapply elem_of_sublist; [done|apply remove_first_sublist].
Qed.

Lemma seq_calls_once_new e (cs : list (@Call K)) n0 n xs :
  n0 ≤ n →
  Forall (λ lo, truthy (once lo) = true → n0 ≤ stamp lo) xs →
  Forall (λ lo, truthy (once lo) = true → n0 ≤ stamp lo) (seq_calls e cs n xs).
Proof.
  revert n xs. induction cs as [|c cs IH]; intros n xs Hn Hxs; simpl; [done|].
  apply IH; [destruct c; simpl; lia | by apply seq_call_once_new].
Qed.

(** X5. No record marked [once] outlives an [emit] on its event: every
    [once] record in the event's sequence after the [emit], whether it
    returned or threw, was registered by a listener during that [emit]. *)
Theorem X5_old_once_records_do_not_survive st e a lo :
  reachable code st →
  lo ∈ listeners_of e (emit code e a st).2 →
  truthy (once lo) = true →
  registered st ≤ stamp lo.
Proof.
  intros Hwf%reachable_wf Hlo.
  rewrite (emit_stored_after code e a st Hwf) in Hlo.
  assert (Forall (λ lo, truthy (once lo) = true → registered st ≤ stamp lo)
            (seq_calls e (calls_of (runs code (listeners_of e st) a (world st)))
               (registered st) (filter (λ lo, not_once lo) (listeners_of e st)))) as HF.
  { apply seq_calls_once_new; [done|].
    apply Forall_forall. intros x [Hkeep _]%list_elem_of_filter.
    unfold not_once in Hkeep. by destruct (truthy (once x)). }
  rewrite Forall_forall in HF. by apply HF.
Qed.

Lemma calls_of_quiet xs a w :
  (∀ f a w, calls_made (code f a w) = []) →
  calls_of (runs code xs a w) = [].
Proof.
  intros Hq. revert w. induction xs as [|lo xs IH]; intros w; [done|].
  unfold calls_of in *. simpl. rewrite Hq. simpl.
  destruct (completion (code (listener lo) a w)); [apply IH | done].
Qed.

Lemma filter_not_once_idemp xs :
  filter (λ lo, not_once lo) (filter (λ lo, not_once lo) xs)
  = filter (λ lo, not_once lo) xs.
Proof.
  induction xs as [|x xs IH]; [done|].
  rewrite (filter_cons _ x xs). case_decide as Hx; [|done].
  by rewrite filter_cons_True, IH.
Qed.

(** X6. When the listeners make no registry calls, one [emit] leaves in the
    event's sequence, in their order, exactly the records whose [once] is not
    [true]: none of them is marked [once] any more.  Every further [emit] on
    that event, returning or throwing, leaves the sequence of every event as
    it is. *)
Theorem X6_second_emit_changes_nothing st e a a' :
  reachable code st →
  (∀ f a w, calls_made (code f a w) = []) →
  listeners_of e (emit code e a st).2
  = filter (λ lo, once lo ≠ Some true) (listeners_of e st) ∧
  Forall (λ lo, once lo ≠ Some true) (listeners_of e (emit code e a st).2) ∧
  (∀ e', listeners_of e' (emit code e a' (emit code e a st).2).2
         = listeners_of e' (emit code e a st).2).
Proof.
  intros Hwf%reachable_wf Hq.
  destruct (emit_spec code e a st Hwf) as (_ & _ & _ & _ & Hwf1 & Hl1).
  assert (listeners_of e (emit code e a st).2
          = filter (λ lo, not_once lo) (listeners_of e st)) as H1.
  { rewrite Hl1, decide_True by done. by rewrite calls_of_quiet. }
  assert (filter (λ lo, not_once lo) (listeners_of e st)
          = filter (λ lo, once lo ≠ Some true) (listeners_of e st)) as Hmarked.
  { apply list_filter_iff. intros lo. unfold not_once, truthy.
    destruct (once lo) as [[|]|]; simpl; split;
      first [done | intros Hne; by destruct Hne]. }
  split_and!.
  - by rewrite H1, Hmarked.
  - rewrite H1, Hmarked. apply Forall_forall.
    by intros lo [? _]%list_elem_of_filter.
  - intros e'.
    destruct (emit_spec code e a' _ Hwf1) as (_ & _ & _ & _ & _ & Hl2).
    rewrite Hl2, calls_of_quiet by done. simpl.
    case_decide; subst; [|done].
    rewrite H1. apply filter_not_once_idemp.
Qed.

Lemma register_writes_fresh flag e f ord st l :
  l < next st → arrays (register flag e f ord st) !! l = arrays st !! l.
Proof.
  intros Hl. unfold register, get_or_empty_slice, Map_get.
  destruct (_listeners st !! e); simpl; by rewrite !lookup_insert_ne by lia.
Qed.

Lemma performs_write_fresh (cs : list (@Call K)) st l :
  Forall (λ c, ¬ is_off c) cs → l < next st →
  arrays (foldl (λ s c, perform c s) st cs) !! l = arrays st !! l.
Proof.
  intros Hcs. revert st. induction Hcs as [|c cs Hc _ IH]; intros st Hl; simpl; [done|].
  destruct c as [ev f ord|ev f ord|ev f]; simpl in *; [| |done].
  - unfold on. rewrite IH by (destruct (register_fields None ev f ord st) as (_&_&_&?); lia).
    by apply register_writes_fresh.
  - unfold once_.
    rewrite IH by (destruct (register_fields (Some true) ev f ord st) as (_&_&_&?); lia).
    by apply register_writes_fresh.
Qed.

Lemma performs_next (cs : list (@Call K)) st :
  next st ≤ next (foldl (λ s c, perform c s) st cs).
Proof.
  revert st. induction cs as [|c cs IH]; intros st; simpl; [done|].
  etrans; [|apply IH]. destruct c as [ev f ord|ev f ord|ev f]; simpl.
  - destruct (register_fields None ev f ord st) as (_&_&_&?). unfold on. lia.
  - destruct (register_fields (Some true) ev f ord st) as (_&_&_&?). unfold once_. lia.
  - by destruct (off_fields ev f st) as (_ & _ & _ & -> & _).
Qed.

Lemma dispatch_writes_fresh xs a st l :
  (∀ f a w, Forall (λ c, ¬ is_off c) (calls_made (code f a w))) →
  l < next st →
  arrays (dispatch code xs a st).2 !! l = arrays st !! l.
Proof.
  intros Hno. revert st. induction xs as [|lo xs IH]; intros st Hl; [done|].
  cbn [dispatch].
  assert (arrays (invoke code (listener lo) a st).2 !! l = arrays st !! l) as Ha
    by (unfold invoke; cbn [snd]; by rewrite performs_write_fresh).
  assert (next st ≤ next (invoke code (listener lo) a st).2) as Hn
    by (unfold invoke; cbn [snd]; apply (performs_next _ (enter code (listener lo) a st))).
  destruct (invoke code (listener lo) a st) as [[r|x] st1]; [|done].
  cbn [snd] in *. specialize (IH st1).
  destruct (dispatch code xs a st1) as [c st2]. cbn [snd] in *.
  rewrite IH by lia. done.
Qed.

Lemma prepare_writes_fresh e st l :
  l < next st →
  arrays (prepare e st) !! l = arrays st !! l ∧ next st ≤ next (prepare e st).
Proof.
  intros Hl. unfold prepare, get_slice_or_empty, Map_get.
  destruct (_listeners st !! e); simpl;
    (split; [by rewrite !lookup_insert_ne by lia | lia]).
Qed.

(** X7. Of the four methods only [off] writes an array that exists: as long
    as no listener calls [off], [on], [once] and [emit] leave every array
    allocated before the call with its contents and write only arrays they
    allocate.  [off] allocates nothing and writes at most the array the map
    holds for its event. *)
Theorem X7_only_off_writes_in_place st e :
  reachable code st →
  (∀ f a w, Forall (λ c, ¬ is_off c) (calls_made (code f a w))) →
  (∀ op l, ¬ is_off_op op → l < next st →
           arrays (exec code op st) !! l = arrays st !! l) ∧
  (∀ f, next (off e f st) = next st) ∧
  (∀ f l, Map_get e st ≠ Some l → arrays (off e f st) !! l = arrays st !! l).
Proof.
  intros Hwf%reachable_wf Hno. split_and!.
  - intros op l Hop Hl.
    destruct op as [ev f ord|ev f ord|ev f|ev a|w]; simpl in *; [..|done].
    + by apply register_writes_fresh.
    + by apply register_writes_fresh.
    + done.
    + rewrite emit_dispatch by done. cbn [snd].
      destruct (prepare_writes_fresh ev st l Hl) as [<- Hn].
      apply dispatch_writes_fresh; [done|lia].
  - intros f. by destruct (off_fields e f st) as (_ & _ & _ & -> & _).
  - intros f l Hl. unfold off, Map_get in *.
    destruct (_listeners st !! e) as [l'|]; [|done].
    case_decide; [|done]. simpl. rewrite lookup_insert_ne; [done|congruence].
Qed.

Lemma count_records_insert f xs item :
  count_records f (insertOrderSorted_list xs item) = count_records f (item :: xs).
Proof.
  unfold count_records. by rewrite insertOrderSorted_list_Permutation.
Qed.

Lemma count_records_remove_first f g xs :
  count_records g (remove_first f xs)
  = if decide (g = f) then pred (count_records g xs) else count_records g xs.
Proof.
  unfold count_records. induction xs as [|x xs IH].
  - by case_decide.
  - rewrite remove_first_cons. rewrite (filter_cons _ x xs).
    destruct (decide (listener x = f)) as [Hx|Hx].
    + destruct (decide (g = f)) as [->|Hg].
      * by rewrite decide_True.
      * rewrite decide_False by congruence. done.
    + rewrite (filter_cons _ x (remove_first f xs)).
      destruct (decide (g = f)) as [->|Hg].
      * rewrite !decide_False by done. by rewrite IH.
      * destruct (decide (listener x = g)); simpl; by rewrite IH.
Qed.

Lemma invocations_of_fmap f a xs :
  invocations_of f ((λ lo, (listener lo, a)) <$> xs) = count_records f xs.
Proof.
  unfold invocations_of, count_records. induction xs as [|x xs IH]; [done|].
  rewrite fmap_cons, (filter_cons _ (listener x, a)), (filter_cons _ x xs). simpl.
  destruct (decide (listener x = f)); simpl; by rewrite IH.
Qed.

(** X8. How often a callback is invoked is how many records it has.  A
    registration of [f] for an event raises the number of [f]'s records in
    the event's sequence by one, [off] with [f] lowers it by one unless it is
    zero, neither changes the number of another callback's records, and an
    [emit] that returns invokes [f] once for each of its records. *)
Theorem X8_invocations_count_records st e f :
  reachable code st →
  (∀ g ord,
     count_records g (listeners_of e (on e f ord st))
     = (if decide (g = f) then 1 else 0) + count_records g (listeners_of e st) ∧
     count_records g (listeners_of e (once_ e f ord st))
     = (if decide (g = f) then 1 else 0) + count_records g (listeners_of e st)) ∧
  (∀ g,
     count_records g (listeners_of e (off e f st))
     = if decide (g = f) then pred (count_records g (listeners_of e st))
       else count_records g (listeners_of e st)) ∧
  (∀ a rs,
     (emit code e a st).1 = Normal rs →
     invocations_of f (drop (length (invoked st)) (invoked (emit code e a st).2))
     = count_records f (listeners_of e st)).
Proof.
  intros Hr. pose proof (reachable_wf code st Hr) as Hwf.
  assert (∀ flag g ord,
            count_records g (listeners_of e (register flag e f ord st))
            = (if decide (g = f) then 1 else 0) + count_records g (listeners_of e st))
    as Hreg.
  { intros flag g ord. rewrite register_listeners_of, decide_True by done.
    rewrite count_records_insert. unfold count_records.
    rewrite filter_cons. simpl.
    destruct (decide (f = g)) as [->|Hne].
    - by rewrite decide_True.
    - by rewrite decide_False by congruence. }
  split_and!.
  - intros g ord. split; apply Hreg.
  - intros g. rewrite off_same. apply count_records_remove_first.
  - intros a rs Hn.
    destruct (emit_one_result_per_record code e a st rs Hr Hn) as [_ ->].
    by rewrite drop_app_length, invocations_of_fmap.
Qed.


Lemma runs_listeners xs ys a w :
  listener <$> xs = listener <$> ys → runs code xs a w = runs code ys a w.
Proof.
  revert ys w. induction xs as [|x xs IH]; intros [|y ys] w Heq; try done.
  simpl in *. injection Heq as -> Heq.
  destruct (completion (code (listener y) a w)); [|done].
  by rewrite (IH ys).
Qed.

Lemma invoked_listeners xs ys a n :
  listener <$> xs = listener <$> ys →
  (λ lo, (listener lo, a)) <$> take n xs = (λ lo, (listener lo, a)) <$> take n ys.
Proof.
  intros Heq.
  change (λ lo : ListenerObject, (listener lo, a)) with ((λ g : fn, (g, a)) ∘ listener).
  by rewrite !list_fmap_compose, !fmap_take, Heq.
Qed.


Lemma insertOrderSorted_list_alike xs (p p' : ListenerObject) :
  listener p = listener p' → order p = order p' →
  listener <$> insertOrderSorted_list xs p = listener <$> insertOrderSorted_list xs p'.
Proof.
  intros Hl Ho. unfold insertOrderSorted_list, insert_position.
  by rewrite Ho, !fmap_app, !fmap_cons, Hl.
Qed.

Lemma insertOrderSorted_list_swap xs (p p' q q' : ListenerObject) :
  order p ≠ order q →
  listener p = listener p' → order p = order p' →
  listener q = listener q' → order q = order q' →
  listener <$> insertOrderSorted_list (insertOrderSorted_list xs p) q
  = listener <$> insertOrderSorted_list (insertOrderSorted_list xs q') p'.
Proof.
  intros Hne Hlp Hop Hlq Hoq. induction xs as [|x xs IH].
  - rewrite !insertOrderSorted_list_nil, !insertOrderSorted_list_cons.
    rewrite !insertOrderSorted_list_nil.
    repeat case_decide; simpl; try lia; congruence.
  - rewrite !(insertOrderSorted_list_cons x xs).
    destruct (decide (order p < order x)%Z) as [Hp|Hp];
      destruct (decide (order q' < order x)%Z) as [Hq|Hq];
      rewrite !insertOrderSorted_list_cons;
      repeat case_decide; try lia;
      rewrite ?insertOrderSorted_list_cons;
      repeat case_decide; try lia;
      rewrite !fmap_cons, ?Hlp, ?Hlq;
      first [ done
            | by rewrite IH
            | by rewrite (insertOrderSorted_list_alike xs q q')
            | by rewrite (insertOrderSorted_list_alike xs p p') ].
Qed.

(** X10. When two callbacks are registered for an event with different
    [order] values, it does not matter which of them is registered first, by
    [on] or by [once] ([register None] and [register (Some true)]): the
    event's sequence holds the callbacks in the same order, and the next
    [emit] invokes the same callbacks in the same order and completes in the
    same way.  ([insertOrderSorted] places records as the specification
    says.) *)
Theorem X10_registrations_of_different_order_commute
    st e a flag1 flag2 f1 f2 o1 o2 :
  reachable code st →
  o1 ≠ o2 →
  let st12 := register flag2 e f2 o2 (register flag1 e f1 o1 st) in
  let st21 := register flag1 e f1 o1 (register flag2 e f2 o2 st) in
  listener <$> listeners_of e st12 = listener <$> listeners_of e st21 ∧
  (emit code e a st12).1 = (emit code e a st21).1 ∧
  invoked (emit code e a st12).2 = invoked (emit code e a st21).2.
Proof.
  intros Hwf%reachable_wf Hne st12 st21.
  assert (listener <$> listeners_of e st12 = listener <$> listeners_of e st21) as Heq.
  { unfold st12, st21.
    rewrite !register_listeners_of by auto using register_wf.
    rewrite !decide_True by done.
    by apply insertOrderSorted_list_swap. }
  split; [done|].
  destruct (emit_spec code e a st12) as (-> & _ & -> & _);
    [unfold st12; auto using register_wf|].
  destruct (emit_spec code e a st21) as (-> & _ & -> & _);
    [unfold st21; auto using register_wf|].
  assert (world st12 = world st21 ∧ invoked st12 = invoked st21) as [-> ->].
  { unfold st12, st21.
    destruct (register_fields flag2 e f2 o2 (register flag1 e f1 o1 st)) as (-> & _ & -> & _).
    destruct (register_fields flag1 e f1 o1 (register flag2 e f2 o2 st)) as (-> & _ & -> & _).
    destruct (register_fields flag1 e f1 o1 st) as (-> & _ & -> & _).
    by destruct (register_fields flag2 e f2 o2 st) as (-> & _ & -> & _). }
  rewrite (runs_listeners _ _ a (world st21) Heq).
  by rewrite (invoked_listeners _ _ a _ Heq).
Qed.

End Extras.

Lemma X1_stored_arrays_are_not_shared_witness :
  let st := after [OpOn "x" plus_one 0; OpOnce "y" times_two 0; OpEmit "x" 5%Z;
                   OpOff "x" plus_one; OpEmit "z" 1%Z] in
  reachable scenario_code st ∧
  Map_get "x" st = Some 5 ∧ Map_get "y" st = Some 3 ∧ Map_get "z" st = Some 7 ∧
  (5 < next st ∧ is_Some (arrays st !! 5)) ∧
  (∀ e', Map_get e' st = Some 5 → "x" = e').
Proof.
  intros st.
  assert (Map_get "x" st = Some 5) as Hx by (by vm_compute).
  pose proof (X1_stored_arrays_are_not_shared scenario_code st (after_reachable _))
    as [Halloc Hinj].
  split; [apply after_reachable|]. split; [done|].
  split; [by vm_compute|]. split; [by vm_compute|].
  split; [by apply (Halloc "x")|].
  intros e'. by apply Hinj.
Defined.

Lemma X2_emit_copy_is_never_written_witness :
  let st := after [OpOn "x" unsubscriber 0; OpOn "x" times_two 0] in
  reachable scenario_code st ∧
  arrays (emit scenario_code "x" 5%Z st).2 !! snapshot "x" st
  = Some (listeners_of "x" st) ∧
  (emit scenario_code "x" 5%Z st).1 = Normal [Some 5%Z; Some 10%Z] ∧
  Forall is_Some [Some 5%Z; Some 10%Z].
Proof.
  intros st.
  assert ((emit scenario_code "x" 5%Z st).1 = Normal [Some 5%Z; Some 10%Z]) as Hn
    by (by vm_compute).
  pose proof (X2_emit_copy_is_never_written scenario_code st "x" 5%Z (after_reachable _))
    as (Hcopy & _ & Hdense).
  split_and!; [apply after_reachable | exact Hcopy | done | by apply Hdense].
Defined.

Lemma X3_off_undoes_registration_witness :
  let st := after [OpOn "x" plus_one 0; OpOn "x" times_two 1] in
  reachable scenario_code st ∧
  absent thrower (listeners_of "x" st) ∧
  listeners_of "x" (off "x" thrower (on "x" thrower 0 st)) = listeners_of "x" st ∧
  listeners_of "x" (off "x" thrower (once_ "x" thrower 0 st)) = listeners_of "x" st.
Proof.
  intros st.
  assert (absent thrower (listeners_of "x" st)) as Habs
    by (vm_compute; repeat constructor; discriminate).
  pose proof (X3_off_undoes_registration scenario_code st "x" thrower 0%Z
                (after_reachable _) Habs) as [Hon Honce].
  split_and!; [apply after_reachable | done | apply Hon | apply Honce].
Defined.

Lemma X4_keys_are_never_removed_witness :
  let st := after [OpOnce "x" plus_one 0; OpEmit "x" 5%Z] in
  reachable scenario_code st ∧
  is_Some (Map_get "x" st) ∧ listeners_of "x" st = [] ∧
  is_Some (Map_get "x" (exec scenario_code (OpOff "x" plus_one) st)) ∧
  Map_get "q" st = None ∧
  is_Some (Map_get "q" (emit scenario_code "q" 5%Z st).2).
Proof.
  intros st.
  assert (is_Some (Map_get "x" st)) as Hx by (vm_compute; by eexists).
  pose proof (X4_keys_are_never_removed scenario_code st "x" (after_reachable _))
    as (Hkeep & _).
  pose proof (X4_keys_are_never_removed scenario_code st "q" (after_reachable _))
    as (_ & _ & Hemit & _).
  split_and!; [apply after_reachable | done | by vm_compute | by apply Hkeep
              | by vm_compute | apply Hemit].
Defined.

Lemma X5_old_once_records_do_not_survive_witness :
  let st := after [OpOnce "y" resubscriber 0] in
  let lo := record (Some true) resubscriber 0 1 in
  reachable scenario_code st ∧
  listeners_of "y" (emit scenario_code "y" 5%Z st).2 = [lo] ∧
  truthy (once lo) = true ∧
  registered st ≤ stamp lo.
Proof.
  intros st lo.
  assert (listeners_of "y" (emit scenario_code "y" 5%Z st).2 = [lo]) as Hl
    by (by vm_compute).
  split_and!; [apply after_reachable | done | done |].
  apply (X5_old_once_records_do_not_survive scenario_code st "y" 5%Z lo
           (after_reachable _)); [rewrite Hl; constructor | done].
Defined.

Lemma X6_second_emit_changes_nothing_witness :
  let st := foldl (λ s op, exec (quiet scenario_code) op s) H0
              [OpOnce "x" plus_one 0; OpOn "x" thrower 1; OpOn "y" times_two 0;
               OpOnce "x" times_two 2; OpOn "x" plus_one 2] in
  let st1 := (emit (quiet scenario_code) "x" 5%Z st).2 in
  reachable (quiet scenario_code) st ∧
  (∀ f a w, calls_made (quiet scenario_code f a w) = []) ∧
  listeners_of "x" st
  = [record (Some true) plus_one 0 0; record None thrower 1 1;
     record (Some true) times_two 2 3; record None plus_one 2 4] ∧
  listeners_of "x" st1 = [record None thrower 1 1; record None plus_one 2 4] ∧
  listeners_of "x" (emit (quiet scenario_code) "x" 7%Z st1).2
  = [record None thrower 1 1; record None plus_one 2 4] ∧
  listeners_of "y" (emit (quiet scenario_code) "x" 7%Z st1).2 = listeners_of "y" st1.
Proof.
  intros st st1.
  assert (listeners_of "x" st
          = [record (Some true) plus_one 0 0; record None thrower 1 1;
             record (Some true) times_two 2 3; record None plus_one 2 4]) as Hxs
    by (by vm_compute).
  assert (listeners_of "x" (emit (quiet scenario_code) "x" 7%Z st1).2
          = [record None thrower 1 1; record None plus_one 2 4]) as Hst2
    by (by vm_compute).
  assert (reachable (quiet scenario_code) st) as Hr
    by apply reachable_execs, reachable_new.
  assert (∀ f a w, calls_made (quiet scenario_code f a w) = []) as Hq by done.
  pose proof (X6_second_emit_changes_nothing (quiet scenario_code) st "x" 5%Z 7%Z Hr Hq)
    as (H1 & _ & H2).
  split_and!; [done | done | done | | done | apply H2].
  unfold st1. rewrite H1, Hxs. reflexivity.
Defined.

Lemma X7_only_off_writes_in_place_witness :
  let st := foldl (λ s op, exec (quiet scenario_code) op s) H0
              [OpOn "x" plus_one 0; OpOnce "x" times_two 1] in
  reachable (quiet scenario_code) st ∧
  (∀ f a w, Forall (λ c, ¬ is_off c) (calls_made (quiet scenario_code f a w))) ∧
  2 < next st ∧ Map_get "x" st = Some 2 ∧
  arrays (exec (quiet scenario_code) (OpEmit "x" 5%Z) st) !! 2 = arrays st !! 2 ∧
  arrays (exec (quiet scenario_code) (OpOn "x" thrower 0) st) !! 2 = arrays st !! 2 ∧
  next (off "x" plus_one st) = next st ∧
  arrays (off "x" plus_one st) !! 1 = arrays st !! 1.
Proof.
  intros st.
  assert (reachable (quiet scenario_code) st) as Hr
    by apply reachable_execs, reachable_new.
  assert (∀ f a w, Forall (λ c, ¬ is_off c) (calls_made (quiet scenario_code f a w)))
    as Hno by (intros; constructor).
  assert (2 < next st) as Hlt by (vm_compute; lia).
  assert (Map_get "x" st = Some 2) as Hx by (by vm_compute).
  pose proof (X7_only_off_writes_in_place (quiet scenario_code) st "x" Hr Hno)
    as (Hfresh & Hnext & Hoff).
  split_and!; [done | done | done | done | | | apply Hnext |].
  - apply Hfresh; [simpl; tauto | done].
  - apply Hfresh; [simpl; tauto | done].
  - apply Hoff. rewrite Hx. discriminate.
Defined.

Lemma X8_invocations_count_records_witness :
  let st := after [OpOn "x" plus_one 0; OpOn "x" times_two 0; OpOnce "x" plus_one 1] in
  reachable scenario_code st ∧
  count_records plus_one (listeners_of "x" st) = 2 ∧
  count_records plus_one (listeners_of "x" (on "x" plus_one 0 st)) = 1 + 2 ∧
  count_records plus_one (listeners_of "x" (off "x" plus_one st)) = pred 2 ∧
  (emit scenario_code "x" 5%Z st).1 = Normal (dense [6; 10; 6]%Z) ∧
  invocations_of plus_one
    (drop (length (invoked st)) (invoked (emit scenario_code "x" 5%Z st).2)) = 2.
Proof.
  intros st.
  assert (count_records plus_one (listeners_of "x" st) = 2) as Hc by (by vm_compute).
  assert ((emit scenario_code "x" 5%Z st).1 = Normal (dense [6; 10; 6]%Z)) as Hn
    by (by vm_compute).
  pose proof (X8_invocations_count_records scenario_code st "x" plus_one
                (after_reachable _)) as (Hon & Hoff & Hemit).
  split_and!; [apply after_reachable | done | | | done |].
  - destruct (Hon plus_one 0%Z) as [-> _]. by rewrite Hc.
  - by rewrite (Hoff plus_one), Hc.
  - by rewrite (Hemit 5%Z (dense [6; 10; 6]%Z) Hn).
Defined.


Lemma X10_registrations_of_different_order_commute_witness :
  let st := after [OpOn "x" unsubscriber 0; OpOn "x" thrower 9] in
  let st12 := on "x" times_two 5 (once_ "x" plus_one (-1) st) in
  let st21 := once_ "x" plus_one (-1) (on "x" times_two 5 st) in
  reachable scenario_code st ∧ (-1)%Z ≠ 5%Z ∧
  listener <$> listeners_of "x" st12 = [plus_one; unsubscriber; times_two; thrower] ∧
  listener <$> listeners_of "x" st12 = listener <$> listeners_of "x" st21 ∧
  (emit scenario_code "x" 5%Z st12).1 = (emit scenario_code "x" 5%Z st21).1.
Proof.
  intros st st12 st21.
  assert ((-1)%Z ≠ 5%Z) as Hne by lia.
  pose proof (X10_registrations_of_different_order_commute scenario_code st "x" 5%Z
                (Some true) None plus_one times_two (-1)%Z 5%Z (after_reachable _) Hne)
    as (Hl & Hc & _).
  split_and!; [apply after_reachable | done | by vm_compute | exact Hl | exact Hc].
Defined.
